(** * Placement: candidate-set algebra and consumer generations

    A shallow embedding of [placement/objects/rp_candidates.py] and of the
    consumer operations of [placement/objects/consumer.py].

    Python objects are kept in an explicit store, because the candidate
    list shares its underlying [set] object with whoever handed it over:
    [merge_common_trees] rebinds [self.rp_candidates] to the very set of
    [other], [|=] updates a set in place, while every filter builds a
    new set and rebinds the attribute. *)

From Stdlib Require Import Ascii.
From stdpp Require Import gmap strings list fin_maps fin_sets pretty.

Local Open Scope string_scope.

(** ** rp_candidates.py *)

Module RPCandidates.

(** [RPCandidate = namedtuple("RPCandidates", "uuid root_uuid rc_name")] *)
Record RPCandidate := mkRPCandidate {
  uuid : string;
  root_uuid : string;
  rc_name : string
}.

#[global] Instance RPCandidate_eq_dec : EqDecision RPCandidate.
Proof. solve_decision. Defined.

#[global] Instance RPCandidate_countable : Countable RPCandidate.
Proof.
  apply (inj_countable'
           (fun p => (uuid p, root_uuid p, rc_name p))
           (fun t => mkRPCandidate t.1.1 t.1.2 t.2)).
  by intros [].
Defined.

(** Values of Python [set] objects holding candidates. *)
Abbreviation cset := (gset RPCandidate).

(** The Python store: [sets] maps the identity of a [set] object to its
    current contents, [lists] maps the identity of an [RPCandidateList]
    to the set object its [rp_candidates] attribute is bound to. *)
Record heap := Heap {
  lists : gmap positive positive;
  sets : gmap positive cset
}.

(** Computations over the store.  [None] stands for following a
    reference to an object that was never created, which no Python
    program can do. *)
Definition M (A : Type) : Type := heap -> option (A * heap).

#[global] Instance M_ret : MRet M := fun A x h => Some (x, h).

#[global] Instance M_bind : MBind M := fun A B k m h =>
  match m h with
  | Some (x, h') => k x h'
  | None => None
  end.

(** [set(...)]: a new set object. *)
Definition alloc_set (s : cset) : M positive :=
  fun h => let a := fresh (dom (sets h)) in
           Some (a, Heap (lists h) (<[a := s]> (sets h))).

(** The contents of a set object. *)
Definition read_set (a : positive) : M cset :=
  fun h => match sets h !! a with
           | Some s => Some (s, h)
           | None => None
           end.

(** In-place update of a set object ([set.__ior__]). *)
Definition write_set (a : positive) (s : cset) : M unit :=
  fun h => match sets h !! a with
           | Some _ => Some (tt, Heap (lists h) (<[a := s]> (sets h)))
           | None => None
           end.

(** [self.rp_candidates] *)
Definition get_attr (o : positive) : M positive :=
  fun h => match lists h !! o with
           | Some a => Some (a, h)
           | None => None
           end.

(** [self.rp_candidates = a] *)
Definition set_attr (o a : positive) : M unit :=
  fun h => match lists h !! o with
           | Some _ => Some (tt, Heap (<[o := a]> (lists h)) (sets h))
           | None => None
           end.

(** [RPCandidateList(rp_candidates)]: [self.rp_candidates = rp_candidates
    or set()].  A non-empty set that is passed in is shared, not copied. *)
Definition init (rp_candidates : option positive) : M positive :=
  fun h =>
    let o := fresh (dom (lists h)) in
    let fresh_empty :=
      '(a, h1) ← alloc_set ∅ h;
      Some (o, Heap (<[o := a]> (lists h1)) (sets h1)) in
    match rp_candidates with
    | None => fresh_empty
    | Some a =>
        match sets h !! a with
        | None => None
        | Some s =>
            if bool_decide (size s = 0)
            then fresh_empty
            else Some (o, Heap (<[o := a]> (lists h)) (sets h))
        end
    end.

(** [__len__] *)
Definition len (self : positive) : M nat :=
  a ← get_attr self; s ← read_set a; mret (size s).

(** [__bool__]: [bool(len(self))] *)
Definition bool_ (self : positive) : M bool :=
  n ← len self; mret (negb (Nat.eqb n 0)).

(** [rps]: [set(p.uuid for p in self.rp_candidates)] *)
Definition rps (self : positive) : M (gset string) :=
  a ← get_attr self; s ← read_set a; mret (set_map uuid s).

(** [trees]: [set(p.root_uuid for p in self.rp_candidates)] *)
Definition trees (self : positive) : M (gset string) :=
  a ← get_attr self; s ← read_set a; mret (set_map root_uuid s).

(** [all_rps]: [self.rps | self.trees] *)
Definition all_rps (self : positive) : M (gset string) :=
  r ← rps self; t ← trees self; mret (r ∪ t).

(** [rps_info]: the set object itself. *)
Definition rps_info (self : positive) : M positive := get_attr self.

(** The comprehensions of the four filters, on set values. *)
Definition keep_tree (tree_root_ids : gset string) (s : cset) : cset :=
  filter (fun p => root_uuid p ∈ tree_root_ids) s.

Definition keep_rp (rptuples : gset (string * string)) (s : cset) : cset :=
  filter (fun p => (uuid p, root_uuid p) ∈ rptuples) s.

(** [set([p.uuid, p.root_uuid]) & rp_uuids] is truthy when not empty. *)
Definition keep_rp_or_tree (rp_uuids : gset string) (s : cset) : cset :=
  filter (fun p => ({[uuid p; root_uuid p]} : gset string) ∩ rp_uuids ≠ ∅) s.

Definition keep_rp_nor_tree (rp_uuids : gset string) (s : cset) : cset :=
  filter (fun p => ¬ (({[uuid p; root_uuid p]} : gset string) ∩ rp_uuids ≠ ∅)) s.

(** [self.rp_candidates = set(p for p in self.rp_candidates if ...)] *)
Definition rebind_filtered (f : cset -> cset) (self : positive) : M unit :=
  a ← get_attr self;
  s ← read_set a;
  a' ← alloc_set (f s);
  set_attr self a'.

Definition filter_by_tree (self : positive) (tree_root_ids : gset string) : M unit :=
  rebind_filtered (keep_tree tree_root_ids) self.

Definition filter_by_rp (self : positive) (rptuples : gset (string * string)) : M unit :=
  rebind_filtered (keep_rp rptuples) self.

Definition filter_by_rp_or_tree (self : positive) (rp_uuids : gset string) : M unit :=
  rebind_filtered (keep_rp_or_tree rp_uuids) self.

Definition filter_by_rp_nor_tree (self : positive) (rp_uuids : gset string) : M unit :=
  rebind_filtered (keep_rp_nor_tree rp_uuids) self.

(** [self.rp_candidates |= x], for a set object [x]: the set object
    bound to the attribute is updated in place ([set.__ior__]) and the
    attribute is bound to it again. *)
Definition ior_attr (self x : positive) : M unit :=
  a ← get_attr self;
  sx ← read_set x;
  s ← read_set a;
  write_set a (s ∪ sx);;
  set_attr self a.

(** [add_rps(rps, rc_name)] *)
Definition add_rps (self : positive) (rps : list (string * string))
    (rc_name : string) : M unit :=
  x ← alloc_set
        (list_to_set (map (fun rp => mkRPCandidate rp.1 rp.2 rc_name) rps));
  ior_attr self x.

(** [merge_common_trees(other)] *)
Definition merge_common_trees (self other : positive) : M unit :=
  b ← bool_ self;
  if negb b then
    a ← get_attr other; set_attr self a
  else
    b' ← bool_ other;
    if negb b' then mret tt
    else
      ts ← trees self;
      to ← trees other;
      let trees_in_both := ts ∩ to in
      ao ← get_attr other;
      ior_attr self ao;;
      filter_by_tree self trees_in_both.

(** The candidate set currently seen through a list object. *)
Definition cands (h : heap) (o : positive) : option cset :=
  a ← lists h !! o; sets h !! a.

(** Every list object is bound to a set object that exists. *)
Definition wf (h : heap) : Prop :=
  set_Forall (fun o => is_Some (cands h o)) (dom (lists h)).

#[global] Instance wf_dec h : Decision (wf h).
Proof. unfold wf. apply _. Defined.

(** The mutators of a candidate list, as calls that can be sequenced. *)
Inductive op :=
| AddRps (self : positive) (rps : list (string * string)) (rc_name : string)
| FilterByTree (self : positive) (tree_root_ids : gset string)
| FilterByRp (self : positive) (rptuples : gset (string * string))
| FilterByRpOrTree (self : positive) (rp_uuids : gset string)
| FilterByRpNorTree (self : positive) (rp_uuids : gset string)
| MergeCommonTrees (self other : positive).

Definition run_op (c : op) : M unit :=
  match c with
  | AddRps self rps rc_name => add_rps self rps rc_name
  | FilterByTree self ids => filter_by_tree self ids
  | FilterByRp self rptuples => filter_by_rp self rptuples
  | FilterByRpOrTree self rp_uuids => filter_by_rp_or_tree self rp_uuids
  | FilterByRpNorTree self rp_uuids => filter_by_rp_nor_tree self rp_uuids
  | MergeCommonTrees self other => merge_common_trees self other
  end.

Fixpoint run_ops (cs : list op) : M unit :=
  match cs with
  | [] => mret tt
  | c :: cs' => run_op c;; run_ops cs'
  end.

(** The list objects a call names. *)
Definition op_objects (c : op) : list positive :=
  match c with
  | AddRps self _ _ | FilterByTree self _ | FilterByRp self _
  | FilterByRpOrTree self _ | FilterByRpNorTree self _ => [self]
  | MergeCommonTrees self other => [self; other]
  end.

(** A call of one of the four filters on the list [o]. *)
Definition is_filter_on (o : positive) (c : op) : Prop :=
  match c with
  | FilterByTree self _ | FilterByRp self _
  | FilterByRpOrTree self _ | FilterByRpNorTree self _ => self = o
  | AddRps _ _ _ | MergeCommonTrees _ _ => False
  end.

(** The scenario of the specification: two candidate lists, each bound
    to a set object of its own. *)
Definition scenario_self : cset :=
  {[ mkRPCandidate "p1" "p1" "DISK";
     mkRPCandidate "p2" "p1" "VCPU";
     mkRPCandidate "p3" "p3" "DISK" ]}.

Definition scenario_other : cset :=
  {[ mkRPCandidate "p1" "p1" "DISK";
     mkRPCandidate "p3" "p3" "VCPU" ]}.

Definition scenario_heap : heap :=
  Heap {[ 1%positive := 1%positive; 2%positive := 2%positive ]}
       {[ 1%positive := scenario_self; 2%positive := scenario_other ]}.

End RPCandidates.

(** ** consumer.py *)

Module ConsumerObj.

Local Open Scope Z_scope.

(** Exceptions that reach the caller. *)
Inductive exn :=
| ConcurrentUpdateDetected
| ConsumerNotFound
| TypeError
| ValueError
| StoreError.

Inductive result (A : Type) :=
| Ok (x : A)
| Raise (e : exn).
Arguments Ok {A} x.
Arguments Raise {A} e.

#[global] Instance result_ret : MRet result := fun A x => Ok x.

#[global] Instance result_bind : MBind result := fun A B k m =>
  match m with
  | Ok x => k x
  | Raise e => Raise e
  end.

(** *** Python's [template % args]

    Only the [%s] conversion occurs in the queries.  Too few or too many
    arguments raise [TypeError]; any other conversion is rejected. *)
Fixpoint percent (tmpl : string) (args : list string) : result string :=
  match tmpl with
  | EmptyString =>
      match args with
      | [] => Ok EmptyString
      | _ :: _ => Raise TypeError
      end
  | String c rest =>
      if Ascii.eqb c "%"%char then
        match rest with
        | String d rest' =>
            if Ascii.eqb d "s"%char then
              match args with
              | a :: args' => r ← percent rest' args'; Ok (a +:+ r)
              | [] => Raise TypeError
              end
            else Raise ValueError
        | EmptyString => Raise ValueError
        end
      else r ← percent rest args; Ok (String c r)
  end.

(** [str(x)] of the values that are formatted into queries. *)
Definition str_int (z : Z) : string := pretty z.

Definition str_opt_int (z : option Z) : string :=
  match z with Some n => str_int n | None => "None" end.

Definition str_opt (s : option string) : string :=
  match s with Some x => x | None => "None" end.

(** *** The property graph

    Modelled from the spec: the Graph Store Adapter ([ctx.tx.run]) is an
    external collaborator; nodes carry a label and the properties the
    queries of this file read and write, relationships are directed and
    may be duplicated ([CREATE]), [timestamp()] reads the store's clock. *)
Inductive node :=
| PROJECT (uuid : string)
| USER (uuid : string)
| CONSUMER (uuid : string) (generation created_at updated_at : Z)
| OTHER.

#[global] Instance node_eq_dec : EqDecision node.
Proof. solve_decision. Defined.

Inductive rel := OWNS | USES.

#[global] Instance rel_eq_dec : EqDecision rel.
Proof. solve_decision. Defined.

Record edge := Edge { src : positive; rtype : rel; dst : positive }.

#[global] Instance edge_eq_dec : EqDecision edge.
Proof. solve_decision. Defined.

Record graph := Graph {
  nodes : gmap positive node;
  edges : list edge;
  clock : Z
}.

(** [(cs:CONSUMER {uuid: u, generation: g})] *)
Definition is_consumer (u : string) (g : Z) (n : node) : bool :=
  match n with
  | CONSUMER u' g' _ _ => bool_decide (u' = u) && bool_decide (g' = g)
  | _ => false
  end.

(** [(cs:CONSUMER {uuid: u})] *)
Definition is_consumer_uuid (u : string) (n : node) : bool :=
  match n with
  | CONSUMER u' _ _ _ => bool_decide (u' = u)
  | _ => false
  end.

(** [(u:USER)] and [(u:USER {uuid: u})] *)
Definition is_user (n : node) : bool :=
  match n with USER _ => true | _ => false end.

Definition is_user_uuid (u : string) (n : node) : bool :=
  match n with USER u' => bool_decide (u' = u) | _ => false end.

Definition node_sat (P : node -> bool) (g : graph) (i : positive) : bool :=
  match nodes g !! i with Some n => P n | None => false end.

(** Identities of the nodes that satisfy a pattern. *)
Definition matching (P : node -> bool) (g : graph) : list positive :=
  (map_to_list (filter (fun kv => P kv.2 = true) (nodes g))).*1.

(** [MERGE (cs:CONSUMER {uuid, generation, created_at, updated_at})
    RETURN cs]: a node with exactly these properties is created unless
    one exists. *)
Definition merge_consumer (u : string) (gen creat updt : Z) (g : graph)
    : list node * graph :=
  let n := CONSUMER u gen creat updt in
  if bool_decide (n ∈ (map_to_list (nodes g)).*2)
  then ([n], g)
  else ([n], Graph (<[fresh (dom (nodes g)) := n]> (nodes g))
                   (edges g) (clock g)).

(** [SET cs.generation = new] *)
Definition set_generation (new : Z) (n : node) : node :=
  match n with
  | CONSUMER u _ c t => CONSUMER u new c t
  | _ => n
  end.

(** [MATCH (cs:CONSUMER {uuid, generation: gen}) WITH cs
    SET cs.generation = new RETURN cs] *)
Definition match_set_generation (u : string) (gen new : Z) (g : graph)
    : list node * graph :=
  let upd := fun n => if is_consumer u gen n then set_generation new n else n in
  (set_generation new <$>
     (map_to_list (filter (fun kv => is_consumer u gen kv.2 = true) (nodes g))).*2,
   Graph (upd <$> nodes g) (edges g) (clock g)).

(** [MATCH p=(u:USER)-[:OWNS]-(cs:CONSUMER {uuid, generation})]: the
    pattern has no direction. *)
Definition owns_path (u : string) (gen : Z) (g : graph) (e : edge) : bool :=
  bool_decide (rtype e = OWNS) &&
  ((node_sat is_user g (src e) && node_sat (is_consumer u gen) g (dst e)) ||
   (node_sat is_user g (dst e) && node_sat (is_consumer u gen) g (src e))).

(** The consumer end of a matched path. *)
Definition path_consumer (u : string) (gen : Z) (g : graph) (e : edge) : positive :=
  if node_sat (is_consumer u gen) g (dst e) then dst e else src e.

(** [MATCH p=... WITH cs, relationships(p)[0] AS owns DELETE owns] *)
Definition drop_owner (u : string) (gen : Z) (g : graph) : graph :=
  Graph (nodes g) (filter (fun e => owns_path u gen g e = false) (edges g))
        (clock g).

(** [... DELETE owns WITH cs OPTIONAL MATCH (u:USER {uuid: new})
    WITH u, cs CREATE (u)-[:OWNS]->(cs)]: one relationship per matched
    path and per matching user; creating from a missing user is refused
    by the store. *)
Definition swap_owner (u : string) (gen : Z) (new : string) (g : graph)
    : result graph :=
  let rows := path_consumer u gen g <$>
                filter (fun e => owns_path u gen g e = true) (edges g) in
  let users := matching (is_user_uuid new) g in
  match rows, users with
  | [], _ => Ok g
  | _ :: _, [] => Raise StoreError
  | _ :: _, _ :: _ =>
      Ok (Graph (nodes g)
                (edges (drop_owner u gen g) ++
                 (cs ← rows; (fun us => Edge us OWNS cs) <$> users))
                (clock g))
  end.

(** [MATCH (cs:CONSUMER) WHERE NOT (cs)-[:USES]->() WITH cs
    DETACH DELETE cs] *)
Definition is_any_consumer (n : node) : bool :=
  match n with CONSUMER _ _ _ _ => true | _ => false end.

Definition has_uses (g : graph) (i : positive) : bool :=
  bool_decide (Exists (fun e => rtype e = USES /\ src e = i) (edges g)).

Definition unused_consumer (g : graph) (i : positive) : bool :=
  node_sat is_any_consumer g i && negb (has_uses g i).

Definition detach_delete_unused (g : graph) : graph :=
  Graph (filter (fun kv => unused_consumer g kv.1 = false) (nodes g))
        (filter (fun e => unused_consumer g (src e) = false /\
                          unused_consumer g (dst e) = false) (edges g))
        (clock g).

(** *** The query texts

    As in the source, with each run of white space written as one
    space. *)
Definition create_query : string :=
  "MERGE (cs:CONSUMER {uuid: '%s', generation: %s, created_at: %s, updated_at: %s}) RETURN cs".

Definition update_swap_query : string :=
  "MATCH p=(u:USER)-[:OWNS]-(cs:CONSUMER {uuid: '%s', generation: %s}) WITH cs, relationships(p)[0] AS owns DELETE owns WITH cs OPTIONAL MATCH (u:USER {uuid: '%s'}) WITH u, cs CREATE (u)-[:OWNS]->(cs)".

Definition update_drop_query : string :=
  "MATCH p=(u:USER)-[:OWNS]-(cs:CONSUMER {uuid: '%s', generation: %s}) WITH cs, relationships(p)[0] AS owns DELETE owns".

Definition increment_query : string :=
  "MATCH (cs:CONSUMER {uuid: '%s', generation: %s}) WITH cs SET cs.generation = %s RETURN cs".

(** *** The [Consumer] object

    [user] is the [User] object, of which only the [uuid] attribute is
    read; [project] is never read by the methods below. *)
Record Consumer := mkConsumer {
  uuid : string;
  user : option (option string);
  generation : option Z;
  updated_at : option Z;
  created_at : option Z
}.

Definition with_generation (gen : Z) (self : Consumer) : Consumer :=
  mkConsumer (uuid self) (user self) (Some gen) (updated_at self)
             (created_at self).

(** Truthiness of an optional integer and of an optional string. *)
Definition truthy_int (z : option Z) : bool :=
  match z with Some n => negb (n =? 0) | None => false end.

Definition truthy_str (s : option string) : bool :=
  match s with Some x => negb (String.eqb x "") | None => false end.

(** [x or 0] *)
Definition or_zero (z : option Z) : Z :=
  match z with Some n => n | None => 0 end.

(** [Consumer.create]: [gen = self.generation or 0]; a missing timestamp
    is written as [timestamp()], which the store evaluates. *)
Definition create (self : Consumer) (g : graph) : result (Consumer * graph) :=
  let gen := or_zero (generation self) in
  let creat := if truthy_int (created_at self)
               then str_opt_int (created_at self) else "timestamp()" in
  let updt := if truthy_int (updated_at self)
              then str_opt_int (updated_at self) else "timestamp()" in
  _ ← percent create_query [uuid self; str_int gen; creat; updt];
  let creat_v := if truthy_int (created_at self)
                 then or_zero (created_at self) else clock g in
  let updt_v := if truthy_int (updated_at self)
                then or_zero (updated_at self) else clock g in
  let '(_, g') := merge_consumer (uuid self) gen creat_v updt_v g in
  Ok (with_generation gen self, g').

(** [Consumer.update] *)
Definition update (self : Consumer) (g : graph) : result (Consumer * graph) :=
  let user_uuid := match user self with Some u => u | None => None end in
  if truthy_str user_uuid then
    _ ← percent update_swap_query
          [uuid self; str_opt_int (generation self); str_opt user_uuid];
    match generation self with
    | None => Raise StoreError
    | Some gen =>
        g' ← swap_owner (uuid self) gen (str_opt user_uuid) g;
        Ok (self, g')
    end
  else
    _ ← percent update_drop_query
          [uuid self; str_opt_int (generation self); str_opt user_uuid];
    match generation self with
    | None => Raise StoreError
    | Some gen => Ok (self, drop_owner (uuid self) gen g)
    end.

(** [Consumer.increment_generation]: [None + 1] is a [TypeError]. *)
Definition increment_generation (self : Consumer) (g : graph)
    : result (Consumer * graph) :=
  match generation self with
  | None => Raise TypeError
  | Some consumer_gen =>
      let new_generation := consumer_gen + 1 in
      _ ← percent increment_query
            [uuid self; str_int consumer_gen; str_int new_generation];
      let '(result, g') :=
        match_set_generation (uuid self) consumer_gen new_generation g in
      match result with
      | [] => Raise ConcurrentUpdateDetected
      | _ :: _ => Ok (with_generation new_generation self, g')
      end
  end.

(** The value of a call of [increment_generation] that does not raise:
    the body has no [return] statement, so the call evaluates to [None];
    an integer would be [Some]. *)
Definition increment_generation_value (self : Consumer) (g : graph)
    : result (option Z) :=
  _ ← increment_generation self g;
  Ok None.

(** [delete_consumers_if_no_allocations]: the body returns before the
    query is built; nothing after the [return] is executed. *)
Definition delete_consumers_if_no_allocations (consumer_uuids : list string)
    (g : graph) : result (unit * graph) :=
  Ok (tt, g).

(** The generations stored for a consumer uuid, one per node. *)
Definition consumer_generation (u : string) (n : node) : option Z :=
  match n with
  | CONSUMER u' gen _ _ => if bool_decide (u' = u) then Some gen else None
  | _ => None
  end.

Definition stored_generations (u : string) (g : graph) : list Z :=
  omap (consumer_generation u) (map_to_list (nodes g)).*2.

(** The users that own a consumer node. *)
Definition owners (g : graph) (cs : positive) : list positive :=
  src <$> filter (fun e => rtype e = OWNS /\ dst e = cs) (edges g).

(** *** Deleting a consumer *)

Definition delete_query : string :=
  "MATCH (cs:CONSUMER {uuid: '%s'}) DETACH DELETE cs".

(** [MATCH (cs:CONSUMER {uuid: u}) DETACH DELETE cs]: the matching nodes
    go, together with every relationship that starts or ends at one. *)
Definition detach_delete_consumer (u : string) (g : graph) : graph :=
  Graph (filter (fun kv => is_consumer_uuid u kv.2 = false) (nodes g))
        (filter (fun e => node_sat (is_consumer_uuid u) g (src e) = false /\
                          node_sat (is_consumer_uuid u) g (dst e) = false)
                (edges g))
        (clock g).

(** [_delete_consumer(ctx, consumer)] *)
Definition _delete_consumer (consumer : Consumer) (g : graph)
    : result (unit * graph) :=
  _ ← percent delete_query [uuid consumer];
  Ok (tt, detach_delete_consumer (uuid consumer) g).

(** [Consumer.delete] *)
Definition delete (self : Consumer) (g : graph) : result (Consumer * graph) :=
  '(_, g') ← _delete_consumer self g;
  Ok (self, g').

(** *** relate_project_and_user *)

Definition owners_query : string :=
  "MATCH pth_user=(pj)-[:OWNS]->(us:USER {uuid: '%s'}) RETURN pj.uuid AS own_uuid UNION MATCH pth_cons=(us)-[:OWNS]->(co:CONSUMER {uuid: '%s'}) RETURN us.uuid AS own_uuid".

Definition delete_user_owners_query : string :=
  "MATCH (us:USER {uuid: '%s'}) WITH us MATCH pth_u=(pj:PROJECT)-[:OWNS]-(us) WHERE pj.uuid <> '%s' WITH relationships(pth_u) AS urels UNWIND urels AS urel DELETE urel".

Definition delete_consumer_owners_query : string :=
  "MATCH (co:CONSUMER {uuid: '%s'}) WITH co MATCH pth_c=(us:USER)-[:OWNS]-(co) WHERE us.uuid <> '%s' WITH relationships(pth_c) AS crels UNWIND crels AS crel DELETE crel".

Definition relate_query : string :=
  "MATCH (pj:PROJECT {uuid: '%s'}) MATCH (us:USER {uuid: '%s'}) MATCH (co:CONSUMER {uuid: '%s'}) WITH pj, us, co MERGE (pj)-[:OWNS]->(us) MERGE (us)-[:OWNS]->(co) RETURN pj, us, co".

(** The [uuid] property of a node, [null] where the node has none. *)
Definition node_uuid (n : node) : option string :=
  match n with
  | PROJECT u | USER u | CONSUMER u _ _ _ => Some u
  | OTHER => None
  end.

Definition is_project_uuid (u : string) (n : node) : bool :=
  match n with PROJECT u' => bool_decide (u' = u) | _ => false end.

(** [(pj:PROJECT) ... WHERE pj.uuid <> u] and the same for users. *)
Definition is_project_not (u : string) (n : node) : bool :=
  match n with PROJECT u' => negb (bool_decide (u' = u)) | _ => false end.

Definition is_user_not (u : string) (n : node) : bool :=
  match n with USER u' => negb (bool_decide (u' = u)) | _ => false end.

(** [MATCH (x)-[:OWNS]->(y) RETURN x.uuid], for the nodes [y] that
    satisfy [P]: one row per relationship. *)
Definition owner_rows (P : node -> bool) (g : graph) : list (option string) :=
  (fun e => n ← nodes g !! src e; node_uuid n) <$>
    filter (fun e => rtype e = OWNS /\
                     node_sat (fun _ => true) g (src e) = true /\
                     node_sat P g (dst e) = true) (edges g).

(** [UNION]: the rows of both parts without duplicates, each row where
    it comes first. *)
Fixpoint distinct_from (seen l : list (option string)) : list (option string) :=
  match l with
  | [] => []
  | x :: l' =>
      if bool_decide (x ∈ seen) then distinct_from seen l'
      else x :: distinct_from (x :: seen) l'
  end.

Definition union_rows (l1 l2 : list (option string)) : list (option string) :=
  distinct_from [] (l1 ++ l2).

(** [MATCH (a)-[:OWNS]-(b) ... DELETE rel], for the nodes [a] that
    satisfy [P] and [b] that satisfy [Q]; the pattern has no
    direction. *)
Definition between (P Q : node -> bool) (g : graph) (e : edge) : bool :=
  bool_decide (rtype e = OWNS) &&
  ((node_sat P g (src e) && node_sat Q g (dst e)) ||
   (node_sat P g (dst e) && node_sat Q g (src e))).

Definition delete_between (P Q : node -> bool) (g : graph) : graph :=
  Graph (nodes g) (filter (fun e => between P Q g e = false) (edges g))
        (clock g).

(** [MERGE (a)-[:OWNS]->(b)] for bound nodes: the relationship is
    created unless there is one. *)
Definition merge_edge (es : list edge) (e : edge) : list edge :=
  if bool_decide (e ∈ es) then es else es ++ [e].

(** The last query: one row per triple of matching nodes, then the two
    [MERGE] clauses, each over all rows. *)
Definition merge_ownership (p u c : string) (g : graph) : graph :=
  let rows :=
    pj ← matching (is_project_uuid p) g;
    us ← matching (is_user_uuid u) g;
    co ← matching (is_consumer_uuid c) g;
    [(pj, us, co)] in
  let es1 := foldl merge_edge (edges g)
               ((fun r => Edge r.1.1 OWNS r.1.2) <$> rows) in
  let es2 := foldl merge_edge es1
               ((fun r => Edge r.1.2 OWNS r.2) <$> rows) in
  Graph (nodes g) es2 (clock g).

(** [relate_project_and_user(ctx, project_uuid, user_uuid,
    consumer_uuid)] *)
Definition relate_project_and_user (project_uuid user_uuid consumer_uuid : string)
    (g : graph) : result (unit * graph) :=
  _ ← percent owners_query [user_uuid; consumer_uuid];
  let owners := union_rows (owner_rows (is_user_uuid user_uuid) g)
                           (owner_rows (is_consumer_uuid consumer_uuid) g) in
  if bool_decide (owners = [Some project_uuid; Some user_uuid]) then Ok (tt, g)
  else
    g2 ← match owners with
         | [] => Ok g
         | _ :: _ =>
             _ ← percent delete_user_owners_query [user_uuid; project_uuid];
             let g1 := delete_between (is_project_not project_uuid)
                                      (is_user_uuid user_uuid) g in
             _ ← percent delete_consumer_owners_query
                   [consumer_uuid; user_uuid];
             Ok (delete_between (is_user_not user_uuid)
                                (is_consumer_uuid consumer_uuid) g1)
         end;
    _ ← percent relate_query [project_uuid; user_uuid; consumer_uuid];
    Ok (tt, merge_ownership project_uuid user_uuid consumer_uuid g2).

(** A relationship of type [OWNS] from node [i] to node [j]. *)
Definition owns (g : graph) (i j : positive) : Prop :=
  Edge i OWNS j ∈ edges g.

(** The ownership relationships follow the chain project, user,
    consumer, between nodes that exist. *)
Definition is_project (n : node) : bool :=
  match n with PROJECT _ => true | _ => false end.

Definition owns_chain (g : graph) : Prop :=
  Forall (fun e => rtype e = OWNS ->
                   (node_sat is_project g (src e) = true /\
                    node_sat is_user g (dst e) = true) \/
                   (node_sat is_user g (src e) = true /\
                    node_sat is_any_consumer g (dst e) = true))
         (edges g).

(** No two nodes carry the uuid [u]. *)
Definition uuid_names (g : graph) (u : string) (i : positive) : Prop :=
  forall j n, nodes g !! j = Some n -> node_uuid n = Some u -> j = i.

(** The project, the user and the consumer are stored, as the nodes
    [pj], [us] and [co], and their uuids are carried by no other node. *)
Definition named (g : graph) (p u c : string) (pj us co : positive) : Prop :=
  node_sat (is_project_uuid p) g pj = true /\
  node_sat (is_user_uuid u) g us = true /\
  node_sat (is_consumer_uuid c) g co = true /\
  uuid_names g p pj /\ uuid_names g u us /\ uuid_names g c co.

(** [pj] owns [us], [us] owns [co], and nothing else owns [us] or
    [co]. *)
Definition sole_owners (g : graph) (pj us co : positive) : Prop :=
  owns g pj us /\ owns g us co /\
  (forall i, owns g i us -> i = pj) /\ (forall i, owns g i co -> i = us).

End ConsumerObj.

(** * Properties of the candidate-set algebra *)

Module RPCandidatesFacts.
Import RPCandidates.

(** ** Running the store computations *)

Lemma cands_Some h o s :
  cands h o = Some s ↔ ∃ a, lists h !! o = Some a ∧ sets h !! a = Some s.
Proof.
  unfold cands. destruct (lists h !! o) as [a|]; simpl.
  - split; [by exists a|]. by intros (? & [= <-] & ?).
  - split; [done|]. by intros (? & ? & ?).
Qed.

Lemma cands_is_Some h o :
  is_Some (cands h o) ↔ ∃ a, lists h !! o = Some a ∧ a ∈ dom (sets h).
Proof.
  split.
  - intros [s (a & Ha & Hs)%cands_Some]. exists a. split; [done|].
    by apply elem_of_dom_2 in Hs.
  - intros (a & Ha & [s Hs]%elem_of_dom). exists s. apply cands_Some. eauto.
Qed.

Lemma bind_run {A B} (m : M A) (k : A → M B) h x h1 :
  m h = Some (x, h1) → (m ≫= k) h = k x h1.
Proof. intros H. unfold mbind, M_bind. by rewrite H. Qed.

Ltac unfold_m :=
  unfold mbind, M_bind, mret, M_ret, get_attr, read_set, write_set,
    set_attr, alloc_set.

Ltac step_with Ha Hs :=
  repeat (first [rewrite Ha | rewrite Hs]; simpl).

Lemma len_run h o s : cands h o = Some s → len o h = Some (size s, h).
Proof.
  intros (a & Ha & Hs)%cands_Some. unfold len. unfold_m. by step_with Ha Hs.
Qed.

Lemma bool_run h o s :
  cands h o = Some s → bool_ o h = Some (bool_decide (s ≠ ∅), h).
Proof.
  intros Hc. unfold bool_. rewrite (bind_run _ _ _ _ _ (len_run _ _ _ Hc)).
  unfold mret, M_ret. do 2 f_equal.
  destruct (decide (s = ∅)) as [->|Hne].
  - by rewrite size_empty, bool_decide_eq_false_2 by auto.
  - rewrite bool_decide_eq_true_2 by done.
    destruct (size s) eqn:Hsz; [|done].
    by apply size_empty_iff, leibniz_equiv in Hsz.
Qed.

Lemma trees_run h o s :
  cands h o = Some s → trees o h = Some (set_map root_uuid s, h).
Proof.
  intros (a & Ha & Hs)%cands_Some. unfold trees. unfold_m. by step_with Ha Hs.
Qed.

Lemma rps_run h o s :
  cands h o = Some s → rps o h = Some (set_map uuid s, h).
Proof.
  intros (a & Ha & Hs)%cands_Some. unfold rps. unfold_m. by step_with Ha Hs.
Qed.

Lemma all_rps_run h o s :
  cands h o = Some s →
  all_rps o h = Some (set_map uuid s ∪ set_map root_uuid s, h).
Proof.
  intros Hc. unfold all_rps.
  rewrite (bind_run _ _ _ _ _ (rps_run _ _ _ Hc)).
  by rewrite (bind_run _ _ _ _ _ (trees_run _ _ _ Hc)).
Qed.

Lemma fresh_set_lookup (m : gmap positive cset) : m !! fresh (dom m) = None.
Proof. apply not_elem_of_dom, is_fresh. Qed.

Lemma dom_insert_present `{Countable K} {V} (m : gmap K V) i x :
  is_Some (m !! i) → dom (<[i := x]> m) = dom m.
Proof.
  intros Hi%elem_of_dom. rewrite dom_insert_L.
  apply subseteq_union_1_L. by apply singleton_subseteq_l.
Qed.

(** A new set object changes no candidate list. *)
Lemma alloc_set_run s h :
  ∃ a h', alloc_set s h = Some (a, h') ∧
          sets h' !! a = Some s ∧
          lists h' = lists h ∧
          (∀ o so, cands h o = Some so → cands h' o = Some so).
Proof.
  eexists _, _. split; [done|]. simpl. split_and!.
  - by rewrite lookup_insert_eq.
  - done.
  - intros o so (a & Ha & Hs)%cands_Some. apply cands_Some. exists a.
    split; [done|]. simpl. rewrite lookup_insert_ne; [done|].
    intros <-. by rewrite fresh_set_lookup in Hs.
Qed.

(** A filter binds the list to a new set; the other lists keep theirs. *)
Lemma rebind_filtered_run f h o s :
  cands h o = Some s →
  ∃ h', rebind_filtered f o h = Some (tt, h') ∧
        cands h' o = Some (f s) ∧
        dom (lists h') = dom (lists h) ∧
        (∀ o' s', o' ≠ o → cands h o' = Some s' → cands h' o' = Some s').
Proof.
  intros (a & Ha & Hs)%cands_Some. unfold rebind_filtered. unfold_m.
  step_with Ha Hs. eexists. split; [done|].
  pose proof (fresh_set_lookup (sets h)) as Hfr. split_and!.
  - unfold cands. simpl. rewrite lookup_insert_eq. simpl.
    by rewrite lookup_insert_eq.
  - simpl. by apply dom_insert_present.
  - intros o' s' Hne (a' & Ha' & Hs')%cands_Some. apply cands_Some. simpl.
    exists a'. rewrite lookup_insert_ne by done. split; [done|].
    rewrite lookup_insert_ne; [done|]. intros <-. congruence.
Qed.

(** [|=] keeps every binding and every set object, and updates one. *)
Lemma ior_attr_run h o x s sx :
  cands h o = Some s → sets h !! x = Some sx →
  ∃ h', ior_attr o x h = Some (tt, h') ∧
        cands h' o = Some (s ∪ sx) ∧
        lists h' = lists h ∧
        dom (sets h') = dom (sets h).
Proof.
  intros (a & Ha & Hs)%cands_Some Hx. unfold ior_attr. unfold_m.
  repeat (first [rewrite Ha | rewrite Hs | rewrite Hx]; simpl).
  eexists. split; [done|]. split_and!.
  - unfold cands. simpl. rewrite lookup_insert_eq. simpl.
    by rewrite lookup_insert_eq.
  - simpl. by apply insert_id.
  - simpl. by apply dom_insert_present.
Qed.

Lemma wf_same_objects h h' :
  lists h' = lists h → dom (sets h') = dom (sets h) → wf h → wf h'.
Proof.
  intros Hl Hd Hwf o Ho. rewrite Hl in Ho.
  apply cands_is_Some. apply Hwf, cands_is_Some in Ho as (a & Ha & Hs).
  exists a. by rewrite Hl, Hd.
Qed.

Lemma wf_rebound h h' o :
  dom (lists h') = dom (lists h) →
  is_Some (cands h' o) →
  (∀ o' s', o' ≠ o → cands h o' = Some s' → cands h' o' = Some s') →
  wf h → wf h'.
Proof.
  intros Hd Ho Hframe Hwf o' Ho'. destruct (decide (o' = o)) as [->|Hne]; [done|].
  rewrite Hd in Ho'. destruct (Hwf _ Ho') as [s' Hs']. eauto.
Qed.

(** ** The three branches of [merge_common_trees] *)

(** [not self]: the list is bound to the set object of [other]. *)
Lemma merge_self_empty h A B sb :
  cands h A = Some ∅ → cands h B = Some sb →
  ∃ h', merge_common_trees A B h = Some (tt, h') ∧
        cands h' A = Some sb ∧
        lists h' !! A = lists h !! B ∧
        sets h' = sets h ∧
        dom (lists h') = dom (lists h) ∧
        (∀ o' s', o' ≠ A → cands h o' = Some s' → cands h' o' = Some s').
Proof.
  intros HA HB. unfold merge_common_trees.
  rewrite (bind_run _ _ _ _ _ (bool_run _ _ _ HA)).
  rewrite bool_decide_eq_false_2 by auto. simpl.
  apply cands_Some in HA as (a & Ha & Hs).
  apply cands_Some in HB as (b & Hb & Hsb).
  unfold_m. repeat (first [rewrite Ha | rewrite Hb]; simpl).
  eexists. split; [done|]. simpl. split_and!.
  - apply cands_Some. exists b. simpl. by rewrite lookup_insert_eq.
  - by rewrite lookup_insert_eq.
  - done.
  - by apply dom_insert_present.
  - intros o' s' Hne (a' & Ha' & Hs')%cands_Some. apply cands_Some.
    exists a'. simpl. by rewrite lookup_insert_ne.
Qed.

(** [not other]: nothing happens. *)
Lemma merge_other_empty h A B sa :
  cands h A = Some sa → cands h B = Some ∅ → sa ≠ ∅ →
  merge_common_trees A B h = Some (tt, h).
Proof.
  intros HA HB Hne. unfold merge_common_trees.
  rewrite (bind_run _ _ _ _ _ (bool_run _ _ _ HA)).
  rewrite bool_decide_eq_true_2 by done. simpl.
  rewrite (bind_run _ _ _ _ _ (bool_run _ _ _ HB)).
  by rewrite bool_decide_eq_false_2 by auto.
Qed.

(** Both lists hold candidates: union in place, then filter by the trees
    that were common before the union. *)
Lemma merge_both_nonempty h A B sa sb :
  cands h A = Some sa → cands h B = Some sb → sa ≠ ∅ → sb ≠ ∅ →
  ∃ h', merge_common_trees A B h = Some (tt, h') ∧
        cands h' A =
          Some (keep_tree (set_map root_uuid sa ∩ set_map root_uuid sb)
                          (sa ∪ sb)) ∧
        dom (lists h') = dom (lists h) ∧
        (wf h → wf h').
Proof.
  intros HA HB Hna Hnb. unfold merge_common_trees.
  rewrite (bind_run _ _ _ _ _ (bool_run _ _ _ HA)).
  rewrite bool_decide_eq_true_2 by done. simpl.
  rewrite (bind_run _ _ _ _ _ (bool_run _ _ _ HB)).
  rewrite bool_decide_eq_true_2 by done. simpl.
  rewrite (bind_run _ _ _ _ _ (trees_run _ _ _ HA)).
  rewrite (bind_run _ _ _ _ _ (trees_run _ _ _ HB)).
  pose proof HB as (b & Hb & Hsb)%cands_Some.
  assert (get_attr B h = Some (b, h)) as Hget.
  { unfold get_attr. by rewrite Hb. }
  rewrite (bind_run _ _ _ _ _ Hget).
  destruct (ior_attr_run _ _ _ _ _ HA Hsb) as (h1 & Hior & HA1 & Hl1 & Hd1).
  rewrite (bind_run _ _ _ _ _ Hior).
  destruct (rebind_filtered_run
              (keep_tree (set_map root_uuid sa ∩ set_map root_uuid sb))
              _ _ _ HA1) as (h2 & Hfil & HA2 & Hd2 & Hframe).
  exists h2. split; [exact Hfil|]. split; [done|]. split.
  - by rewrite Hd2, Hl1.
  - intros Hwf. eapply (wf_rebound h1 h2 A); eauto.
    by apply (wf_same_objects h).
Qed.

(** [merge_common_trees] always returns, and keeps the store well
    formed. *)
Lemma merge_common_trees_wf h A B :
  wf h → A ∈ dom (lists h) → B ∈ dom (lists h) →
  ∃ h', merge_common_trees A B h = Some (tt, h') ∧
        dom (lists h') = dom (lists h) ∧ wf h'.
Proof.
  intros Hwf [sa HA]%Hwf [sb HB]%Hwf.
  destruct (decide (sa = ∅)) as [->|Hna].
  - destruct (merge_self_empty _ _ _ _ HA HB)
      as (h' & Hrun & HA' & _ & _ & Hd & Hframe).
    exists h'. split_and!; [done..|]. by eapply (wf_rebound h h' A).
  - destruct (decide (sb = ∅)) as [->|Hnb].
    + exists h. by rewrite (merge_other_empty _ _ _ _ HA HB Hna).
    + destruct (merge_both_nonempty _ _ _ _ _ HA HB Hna Hnb)
        as (h' & Hrun & _ & Hd & Hwf').
      exists h'. auto.
Qed.

(** ** The mutators keep the store well formed *)

Lemma add_rps_wf h o rps rc_name :
  wf h → o ∈ dom (lists h) →
  ∃ h', add_rps o rps rc_name h = Some (tt, h') ∧
        dom (lists h') = dom (lists h) ∧ wf h'.
Proof.
  intros Hwf Ho. unfold add_rps.
  destruct (alloc_set_run
              (list_to_set (map (λ rp, mkRPCandidate rp.1 rp.2 rc_name) rps)) h)
    as (x & h1 & Hal & Hx & Hl1 & Hkeep).
  rewrite (bind_run _ _ _ _ _ Hal).
  assert (wf h1) as Hwf1.
  { intros o' Ho'. rewrite Hl1 in Ho'. destruct (Hwf _ Ho') as [s' Hs']. eauto. }
  destruct (Hwf _ Ho) as [s Hs]. apply Hkeep in Hs.
  destruct (ior_attr_run _ _ _ _ _ Hs Hx) as (h2 & Hior & _ & Hl2 & Hd2).
  exists h2. split; [done|]. split; [by rewrite Hl2, Hl1|].
  by apply (wf_same_objects h1).
Qed.

Lemma rebind_filtered_wf f h o :
  wf h → o ∈ dom (lists h) →
  ∃ h', rebind_filtered f o h = Some (tt, h') ∧
        dom (lists h') = dom (lists h) ∧ wf h'.
Proof.
  intros Hwf Ho. destruct (Hwf _ Ho) as [s Hs].
  destruct (rebind_filtered_run f _ _ _ Hs) as (h' & Hrun & Hc & Hd & Hframe).
  exists h'. split_and!; [done..|]. by eapply (wf_rebound h h' o).
Qed.

Lemma run_op_wf c h :
  wf h → Forall (λ x, x ∈ dom (lists h)) (op_objects c) →
  ∃ h', run_op c h = Some (tt, h') ∧ dom (lists h') = dom (lists h) ∧ wf h'.
Proof.
  intros Hwf Hobj. destruct c; simpl in *.
  - apply Forall_cons in Hobj as [Ho _]. by apply add_rps_wf.
  - apply Forall_cons in Hobj as [Ho _]. by apply rebind_filtered_wf.
  - apply Forall_cons in Hobj as [Ho _]. by apply rebind_filtered_wf.
  - apply Forall_cons in Hobj as [Ho _]. by apply rebind_filtered_wf.
  - apply Forall_cons in Hobj as [Ho _]. by apply rebind_filtered_wf.
  - apply Forall_cons in Hobj as [Ho [Ho' _]%Forall_cons].
    by apply merge_common_trees_wf.
Qed.

Lemma run_ops_wf cs h :
  wf h →
  Forall (λ c, Forall (λ x, x ∈ dom (lists h)) (op_objects c)) cs →
  ∃ h', run_ops cs h = Some (tt, h') ∧ dom (lists h') = dom (lists h) ∧ wf h'.
Proof.
  revert h. induction cs as [|c cs IH]; intros h Hwf Hcs; simpl.
  - by exists h.
  - apply Forall_cons in Hcs as [Hc Hcs].
    destruct (run_op_wf c h Hwf Hc) as (h1 & Hrun & Hd & Hwf1).
    rewrite (bind_run _ _ _ _ _ Hrun).
    destruct (IH h1 Hwf1) as (h2 & Hrun2 & Hd2 & Hwf2).
    { by rewrite Hd. }
    exists h2. split_and!; [done| |done]. by rewrite Hd2.
Qed.

(** ** merge_common_trees *)

(** C1. When both lists hold candidates, [A.merge_common_trees(B)]
    returns and leaves [A] with exactly the triples of the union of both
    candidate sets whose root is in [A.trees & B.trees], the two views
    being taken before the union. *)
Theorem merge_common_trees_keeps_common_trees h A B sa sb :
  cands h A = Some sa → cands h B = Some sb → sa ≠ ∅ → sb ≠ ∅ →
  ∃ ta tb h' s',
    trees A h = Some (ta, h) ∧ trees B h = Some (tb, h) ∧
    merge_common_trees A B h = Some (tt, h') ∧
    cands h' A = Some s' ∧
    ∀ p, p ∈ s' ↔ (p ∈ sa ∨ p ∈ sb) ∧ root_uuid p ∈ ta ∧ root_uuid p ∈ tb.
Proof.
  intros HA HB Hna Hnb.
  destruct (merge_both_nonempty _ _ _ _ _ HA HB Hna Hnb)
    as (h' & Hrun & HA' & _ & _).
  eexists _, _, h', _. split; [by apply trees_run|].
  split; [by apply trees_run|]. split; [done|]. split; [exact HA'|].
  intros p. unfold keep_tree.
  rewrite elem_of_filter, elem_of_intersection, elem_of_union. tauto.
Qed.

Lemma merge_common_trees_keeps_common_trees_witness :
  cands scenario_heap 1 = Some scenario_self ∧
  cands scenario_heap 2 = Some scenario_other ∧
  ∃ ta tb h' s',
    trees 1 scenario_heap = Some (ta, scenario_heap) ∧
    trees 2 scenario_heap = Some (tb, scenario_heap) ∧
    merge_common_trees 1 2 scenario_heap = Some (tt, h') ∧
    cands h' 1 = Some s' ∧
    ∀ p, p ∈ s' ↔
         (p ∈ scenario_self ∨ p ∈ scenario_other) ∧
         root_uuid p ∈ ta ∧ root_uuid p ∈ tb.
Proof.
  split; [reflexivity|]. split; [reflexivity|].
  apply (merge_common_trees_keeps_common_trees
           scenario_heap 1 2 scenario_self scenario_other).
  - reflexivity.
  - reflexivity.
  - apply (bool_decide_unpack _). vm_compute. exact I.
  - apply (bool_decide_unpack _). vm_compute. exact I.
Defined.

(** C3. If [B] is empty, [A.merge_common_trees(B)] leaves the candidate
    set of [A] as it was; if [A] is empty, it makes the candidate set of
    [A] that of [B]. *)
Theorem merge_common_trees_empty_cases h A B sa sb :
  cands h A = Some sa → cands h B = Some sb →
  (sb = ∅ → ∃ h', merge_common_trees A B h = Some (tt, h') ∧
                  cands h' A = Some sa) ∧
  (sa = ∅ → ∃ h', merge_common_trees A B h = Some (tt, h') ∧
                  cands h' A = Some sb).
Proof.
  intros HA HB. split.
  - intros ->. destruct (decide (sa = ∅)) as [->|Hna].
    + destruct (merge_self_empty _ _ _ _ HA HB) as (h' & Hrun & HA' & _).
      by exists h'.
    + exists h. by rewrite (merge_other_empty _ _ _ _ HA HB Hna).
  - intros ->.
    destruct (merge_self_empty _ _ _ _ HA HB) as (h' & Hrun & HA' & _).
    by exists h'.
Qed.

Lemma merge_common_trees_empty_cases_witness :
  let h := Heap {[ 1%positive := 1%positive; 2%positive := 2%positive ]}
                {[ 1%positive := scenario_self; 2%positive := ∅ ]} in
  (∃ h', merge_common_trees 1 2 h = Some (tt, h') ∧
         cands h' 1 = Some scenario_self) ∧
  (∃ h', merge_common_trees 2 1 h = Some (tt, h') ∧
         cands h' 2 = Some scenario_self).
Proof.
  intros h. split.
  - apply (proj1 (merge_common_trees_empty_cases h 1 2 scenario_self ∅
                    eq_refl eq_refl)).
    reflexivity.
  - apply (proj2 (merge_common_trees_empty_cases h 2 1 ∅ scenario_self
                    eq_refl eq_refl)).
    reflexivity.
Defined.

(** C7. When both lists hold candidates and no tree is nominated by
    both, [A.merge_common_trees(B)] leaves [A] without candidates. *)
Theorem merge_common_trees_disjoint_trees h A B sa sb ta tb :
  cands h A = Some sa → cands h B = Some sb → sa ≠ ∅ → sb ≠ ∅ →
  trees A h = Some (ta, h) → trees B h = Some (tb, h) → ta ## tb →
  ∃ h', merge_common_trees A B h = Some (tt, h') ∧ cands h' A = Some ∅.
Proof.
  intros HA HB Hna Hnb Hta Htb Hdisj.
  rewrite (trees_run _ _ _ HA) in Hta. rewrite (trees_run _ _ _ HB) in Htb.
  injection Hta as <-. injection Htb as <-.
  destruct (merge_both_nonempty _ _ _ _ _ HA HB Hna Hnb)
    as (h' & Hrun & HA' & _ & _).
  exists h'. split; [done|]. rewrite HA'. f_equal.
  apply leibniz_equiv. intros p. unfold keep_tree.
  rewrite elem_of_filter, elem_of_intersection.
  split; [|by intros ?%not_elem_of_empty].
  intros [[H1 H2] _]. destruct (Hdisj _ H1 H2).
Qed.

Lemma merge_common_trees_disjoint_trees_witness :
  let sa : cset := {[ mkRPCandidate "p1" "p1" "DISK" ]} in
  let sb : cset := {[ mkRPCandidate "p4" "p3" "VCPU" ]} in
  let h := Heap {[ 1%positive := 1%positive; 2%positive := 2%positive ]}
                {[ 1%positive := sa; 2%positive := sb ]} in
  ∃ h', merge_common_trees 1 2 h = Some (tt, h') ∧ cands h' 1 = Some ∅.
Proof.
  intros sa sb h.
  apply (merge_common_trees_disjoint_trees h 1 2 sa sb {[ "p1" ]} {[ "p3" ]}).
  - reflexivity.
  - reflexivity.
  - apply (bool_decide_unpack _). vm_compute. exact I.
  - apply (bool_decide_unpack _). vm_compute. exact I.
  - reflexivity.
  - reflexivity.
  - apply (bool_decide_unpack _). vm_compute. exact I.
Defined.

(** C6. The scenario of the specification.  The trees in both lists are
    [p1] and [p3]; the union of the two lists has four triples, the
    triple [(p1, p1, DISK)] being in both, and all four are kept. *)
Theorem merge_common_trees_scenario :
  ∃ ta tb h',
    trees 1 scenario_heap = Some (ta, scenario_heap) ∧
    trees 2 scenario_heap = Some (tb, scenario_heap) ∧
    ta ∩ tb = {[ "p1"; "p3" ]} ∧
    merge_common_trees 1 2 scenario_heap = Some (tt, h') ∧
    cands h' 1 =
      Some (filter (λ p, root_uuid p ∈ ({[ "p1"; "p3" ]} : gset string))
                   (scenario_self ∪ scenario_other)) ∧
    size (scenario_self ∪ scenario_other) = 4 ∧
    cands h' 1 =
      Some {[ mkRPCandidate "p1" "p1" "DISK";
              mkRPCandidate "p2" "p1" "VCPU";
              mkRPCandidate "p3" "p3" "DISK";
              mkRPCandidate "p3" "p3" "VCPU" ]}.
Proof.
  assert (cands scenario_heap 1 = Some scenario_self) as HA by reflexivity.
  assert (cands scenario_heap 2 = Some scenario_other) as HB by reflexivity.
  assert (scenario_self ≠ ∅) as Hna.
  { apply (bool_decide_unpack _). vm_compute. exact I. }
  assert (scenario_other ≠ ∅) as Hnb.
  { apply (bool_decide_unpack _). vm_compute. exact I. }
  destruct (merge_both_nonempty _ _ _ _ _ HA HB Hna Hnb)
    as (h' & Hrun & HA' & _ & _).
  eexists _, _, h'. split; [by apply trees_run|].
  split; [by apply trees_run|]. split; [by vm_compute|].
  split; [done|]. rewrite HA'. split_and!.
  - apply (bool_decide_unpack _). vm_compute. exact I.
  - by vm_compute.
  - apply (bool_decide_unpack _). vm_compute. exact I.
Qed.

(** C6, as stated: the union of the two lists does not have five
    elements, so no merge result is a filtered five-element union. *)
Lemma merge_common_trees_scenario_union_not_five :
  ¬ ∃ h' s,
      merge_common_trees 1 2 scenario_heap = Some (tt, h') ∧
      cands h' 1 = Some s ∧
      s = filter (λ p, root_uuid p ∈ ({[ "p1"; "p3" ]} : gset string))
                 (scenario_self ∪ scenario_other) ∧
      size (scenario_self ∪ scenario_other) = 5 ∧
      size s = 4.
Proof.
  intros (h' & s & _ & _ & _ & Hfive & _).
  vm_compute in Hfive. discriminate.
Qed.

(** ** The filters *)

Lemma filter_filter_same (P : RPCandidate → Prop) `{!∀ p, Decision (P p)}
    (s : cset) :
  filter P (filter P s) = filter P s.
Proof.
  apply leibniz_equiv. intros p. rewrite !elem_of_filter. tauto.
Qed.

Lemma rebind_filter_shrinks (P : RPCandidate → Prop) `{!∀ p, Decision (P p)}
    h o s :
  cands h o = Some s →
  ∃ h' s', rebind_filtered (filter P) o h = Some (tt, h') ∧
           cands h' o = Some s' ∧ s' ⊆ s ∧
           ∃ h'', rebind_filtered (filter P) o h' = Some (tt, h'') ∧
                  cands h'' o = Some s'.
Proof.
  intros Hc.
  destruct (rebind_filtered_run (filter P) _ _ _ Hc) as (h' & Hrun & Hc' & _).
  destruct (rebind_filtered_run (filter P) _ _ _ Hc') as (h'' & Hrun' & Hc'' & _).
  exists h', (filter P s). split_and!; [done..| |].
  - intros p [_ Hp]%elem_of_filter. exact Hp.
  - exists h''. split; [done|]. by rewrite Hc'', filter_filter_same.
Qed.

(** C10. Each of the four filters returns and leaves the list with a
    subset of the candidates it had; filtering again with the same
    argument changes nothing more. *)
Theorem filters_only_remove (h : heap) (o : positive) (s : cset)
    (ids : gset string) (rptuples : gset (string * string))
    (rp_uuids : gset string) :
  cands h o = Some s →
  (∃ h' s', filter_by_tree o ids h = Some (tt, h') ∧
            cands h' o = Some s' ∧ s' ⊆ s ∧
            ∃ h'', filter_by_tree o ids h' = Some (tt, h'') ∧
                   cands h'' o = Some s') ∧
  (∃ h' s', filter_by_rp o rptuples h = Some (tt, h') ∧
            cands h' o = Some s' ∧ s' ⊆ s ∧
            ∃ h'', filter_by_rp o rptuples h' = Some (tt, h'') ∧
                   cands h'' o = Some s') ∧
  (∃ h' s', filter_by_rp_or_tree o rp_uuids h = Some (tt, h') ∧
            cands h' o = Some s' ∧ s' ⊆ s ∧
            ∃ h'', filter_by_rp_or_tree o rp_uuids h' = Some (tt, h'') ∧
                   cands h'' o = Some s') ∧
  (∃ h' s', filter_by_rp_nor_tree o rp_uuids h = Some (tt, h') ∧
            cands h' o = Some s' ∧ s' ⊆ s ∧
            ∃ h'', filter_by_rp_nor_tree o rp_uuids h' = Some (tt, h'') ∧
                   cands h'' o = Some s').
Proof.
  intros Hc. split_and!.
  - apply (rebind_filter_shrinks (λ p, root_uuid p ∈ ids) _ _ _ Hc).
  - apply (rebind_filter_shrinks
             (λ p, (uuid p, root_uuid p) ∈ rptuples) _ _ _ Hc).
  - apply (rebind_filter_shrinks
             (λ p, ({[uuid p; root_uuid p]} : gset string) ∩ rp_uuids ≠ ∅)
             _ _ _ Hc).
  - apply (rebind_filter_shrinks
             (λ p, ¬ (({[uuid p; root_uuid p]} : gset string) ∩ rp_uuids ≠ ∅))
             _ _ _ Hc).
Qed.

(** C5. On the same list, [filter_by_rp_or_tree(S)] and
    [filter_by_rp_nor_tree(S)] keep two disjoint sets of candidates
    whose union is the candidate set before the call. *)
Theorem filter_by_rp_or_nor_tree_partition h o s (rp_uuids : gset string) :
  cands h o = Some s →
  ∃ h1 h2 s1 s2,
    filter_by_rp_or_tree o rp_uuids h = Some (tt, h1) ∧
    filter_by_rp_nor_tree o rp_uuids h = Some (tt, h2) ∧
    cands h1 o = Some s1 ∧ cands h2 o = Some s2 ∧
    s1 ## s2 ∧ s1 ∪ s2 = s.
Proof.
  intros Hc.
  destruct (rebind_filtered_run (keep_rp_or_tree rp_uuids) _ _ _ Hc)
    as (h1 & Hrun1 & Hc1 & _).
  destruct (rebind_filtered_run (keep_rp_nor_tree rp_uuids) _ _ _ Hc)
    as (h2 & Hrun2 & Hc2 & _).
  exists h1, h2, (keep_rp_or_tree rp_uuids s), (keep_rp_nor_tree rp_uuids s).
  split_and!; [done..| |].
  - apply disjoint_filter_complement.
  - unfold keep_rp_or_tree, keep_rp_nor_tree.
    apply leibniz_equiv, filter_union_complement.
Qed.

Lemma filters_only_remove_witness :
  let shrinks (f : M unit) :=
    ∃ h' s', f scenario_heap = Some (tt, h') ∧
             cands h' 1 = Some s' ∧ s' ⊆ scenario_self ∧
             ∃ h'', f h' = Some (tt, h'') ∧ cands h'' 1 = Some s' in
  cands scenario_heap 1 = Some scenario_self ∧
  shrinks (filter_by_tree 1 {[ "p1" ]}) ∧
  shrinks (filter_by_rp 1 {[ ("p2", "p1") ]}) ∧
  shrinks (filter_by_rp_or_tree 1 {[ "p3" ]}) ∧
  shrinks (filter_by_rp_nor_tree 1 {[ "p3" ]}).
Proof.
  intros shrinks. split; [reflexivity|].
  apply (filters_only_remove scenario_heap 1 scenario_self
           {[ "p1" ]} {[ ("p2", "p1") ]} {[ "p3" ]}).
  reflexivity.
Defined.

Lemma filter_by_rp_or_nor_tree_partition_witness :
  cands scenario_heap 1 = Some scenario_self ∧
  ∃ h1 h2 s1 s2,
    filter_by_rp_or_tree 1 {[ "p1" ]} scenario_heap = Some (tt, h1) ∧
    filter_by_rp_nor_tree 1 {[ "p1" ]} scenario_heap = Some (tt, h2) ∧
    cands h1 1 = Some s1 ∧ cands h2 1 = Some s2 ∧
    s1 ## s2 ∧ s1 ∪ s2 = scenario_self.
Proof.
  split; [reflexivity|].
  apply (filter_by_rp_or_nor_tree_partition scenario_heap 1 scenario_self
           {[ "p1" ]}).
  reflexivity.
Defined.

(** ** The derived views *)

(** C9. After any sequence of [add_rps], filter and [merge_common_trees]
    calls on the lists of a store, the sequence having returned, every
    list has [rps ⊆ all_rps] and [trees ⊆ all_rps]. *)
Theorem views_within_all_rps cs h o :
  wf h →
  Forall (λ c, Forall (λ x, x ∈ dom (lists h)) (op_objects c)) cs →
  o ∈ dom (lists h) →
  ∃ h' r t al,
    run_ops cs h = Some (tt, h') ∧
    rps o h' = Some (r, h') ∧
    trees o h' = Some (t, h') ∧
    all_rps o h' = Some (al, h') ∧
    r ⊆ al ∧ t ⊆ al.
Proof.
  intros Hwf Hcs Ho.
  destruct (run_ops_wf cs h Hwf Hcs) as (h' & Hrun & Hd & Hwf').
  rewrite <- Hd in Ho. destruct (Hwf' _ Ho) as [s Hs].
  exists h', (set_map uuid s), (set_map root_uuid s),
         (set_map uuid s ∪ set_map root_uuid s).
  split; [done|]. split; [by apply rps_run|]. split; [by apply trees_run|].
  split; [by apply all_rps_run|]. split.
  - apply union_subseteq_l.
  - apply union_subseteq_r.
Qed.

Lemma views_within_all_rps_witness :
  let cs := [ AddRps 1 [("p4", "p5")] "MEMORY_MB";
              FilterByRpNorTree 1 {[ "p2" ]};
              MergeCommonTrees 2 1;
              FilterByTree 2 {[ "p1"; "p5" ]} ] in
  wf scenario_heap ∧
  ∃ h' r t al,
    run_ops cs scenario_heap = Some (tt, h') ∧
    rps 2 h' = Some (r, h') ∧
    trees 2 h' = Some (t, h') ∧
    all_rps 2 h' = Some (al, h') ∧
    r ⊆ al ∧ t ⊆ al.
Proof.
  intros cs.
  assert (wf scenario_heap) as Hwf.
  { apply (bool_decide_unpack _). vm_compute. exact I. }
  split; [exact Hwf|].
  apply (views_within_all_rps cs scenario_heap 2 Hwf).
  - apply (bool_decide_unpack _). vm_compute. exact I.
  - apply (bool_decide_unpack _). vm_compute. exact I.
Defined.

(** The sharing that [merge_common_trees] sets up when [self] is empty:
    a later [add_rps] on [self] is seen through [other] as well. *)
Example merge_common_trees_shares_set :
  let h := Heap {[ 1%positive := 1%positive; 2%positive := 2%positive ]}
                {[ 1%positive := ∅; 2%positive := scenario_other ]} in
  ∃ h', (merge_common_trees 1 2;; add_rps 1 [("p9", "p9")] "DISK") h
          = Some (tt, h') ∧
        cands h' 2 = Some ({[ mkRPCandidate "p9" "p9" "DISK" ]} ∪ scenario_other).
Proof.
  intros h. eexists. split; [by vm_compute|].
  apply (bool_decide_unpack _). vm_compute. exact I.
Qed.

(** ** The store after each mutator *)

Lemma ior_attr_exact h o x a s sx :
  lists h !! o = Some a → sets h !! a = Some s → sets h !! x = Some sx →
  ior_attr o x h = Some (tt, Heap (lists h) (<[a := s ∪ sx]> (sets h))).
Proof.
  intros Ha Hs Hx. unfold ior_attr. unfold_m.
  repeat (first [rewrite Ha | rewrite Hs | rewrite Hx]; simpl).
  by rewrite (insert_id (lists h) o a Ha).
Qed.

Lemma rebind_filtered_exact f h o a s :
  lists h !! o = Some a → sets h !! a = Some s →
  rebind_filtered f o h =
    Some (tt, Heap (<[o := fresh (dom (sets h))]> (lists h))
                   (<[fresh (dom (sets h)) := f s]> (sets h))).
Proof.
  intros Ha Hs. unfold rebind_filtered. unfold_m. by step_with Ha Hs.
Qed.

Lemma cands_insert_set (l : gmap positive positive)
    (m : gmap positive cset) a s o b :
  l !! o = Some b →
  cands (Heap l (<[a := s]> m)) o =
    if decide (a = b) then Some s else m !! b.
Proof.
  intros Hb. unfold cands. simpl. rewrite Hb. simpl.
  destruct (decide (a = b)) as [->|Hne].
  - by rewrite lookup_insert_eq.
  - by rewrite lookup_insert_ne.
Qed.

Lemma add_rps_exact h o rps rc_name a s :
  lists h !! o = Some a → sets h !! a = Some s →
  add_rps o rps rc_name h =
    Some (tt,
          Heap (lists h)
               (<[a := s ∪ list_to_set
                          (map (λ rp, mkRPCandidate rp.1 rp.2 rc_name) rps)]>
                  (<[fresh (dom (sets h)) :=
                       list_to_set
                         (map (λ rp, mkRPCandidate rp.1 rp.2 rc_name) rps)]>
                     (sets h)))).
Proof.
  intros Ha Hs. unfold add_rps.
  set (new := list_to_set (map (λ rp, mkRPCandidate rp.1 rp.2 rc_name) rps)).
  assert (alloc_set new h =
          Some (fresh (dom (sets h)),
                Heap (lists h) (<[fresh (dom (sets h)) := new]> (sets h))))
    as Hal by done.
  rewrite (bind_run _ _ _ _ _ Hal).
  assert (a ≠ fresh (dom (sets h))) as Hne.
  { intros ->. by rewrite fresh_set_lookup in Hs. }
  rewrite (ior_attr_exact _ o (fresh (dom (sets h))) a s new); simpl.
  - done.
  - done.
  - by rewrite lookup_insert_ne.
  - by rewrite lookup_insert_eq.
Qed.

Lemma elem_of_new_candidates p (rps : list (string * string)) rc :
  p ∈ (list_to_set (map (λ rp, mkRPCandidate rp.1 rp.2 rc) rps) : cset) ↔
  rc_name p = rc ∧ (uuid p, root_uuid p) ∈ rps.
Proof.
  rewrite elem_of_list_to_set. change (map ?f ?l) with (f <$> l).
  rewrite list_elem_of_fmap. split.
  - intros ([u r] & -> & Hin). by simpl.
  - intros [<- Hin]. exists (uuid p, root_uuid p). split; [|done].
    by destruct p.
Qed.

(** ** add_rps *)

(** X1. [add_rps] returns and leaves the list with the candidates it had
    and one triple per given pair, tagged with the resource class. *)
Theorem add_rps_candidates h o s rps rc :
  cands h o = Some s →
  ∃ h' s', add_rps o rps rc h = Some (tt, h') ∧
           cands h' o = Some s' ∧
           ∀ p, p ∈ s' ↔
                p ∈ s ∨ (rc_name p = rc ∧ (uuid p, root_uuid p) ∈ rps).
Proof.
  intros (a & Ha & Hs)%cands_Some.
  eexists _, _. split; [by apply add_rps_exact|]. split.
  - rewrite (cands_insert_set _ _ _ _ _ a) by done. by rewrite decide_True.
  - intros p. by rewrite elem_of_union, elem_of_new_candidates.
Qed.

Lemma add_rps_candidates_witness :
  cands scenario_heap 2 = Some scenario_other ∧
  ∃ h' s', add_rps 2 [("p4", "p3")] "VCPU" scenario_heap = Some (tt, h') ∧
           cands h' 2 = Some s' ∧
           ∀ p, p ∈ s' ↔
                p ∈ scenario_other ∨
                (rc_name p = "VCPU" ∧ (uuid p, root_uuid p) ∈ [("p4", "p3")]).
Proof.
  split; [reflexivity|].
  apply (add_rps_candidates scenario_heap 2 scenario_other
           [("p4", "p3")] "VCPU").
  reflexivity.
Defined.

(** X2. Adding the same providers for the same class a second time
    changes neither the candidates nor the length of the list. *)
Theorem add_rps_twice h o s rps rc :
  cands h o = Some s →
  ∃ h1 h2 s1 n,
    add_rps o rps rc h = Some (tt, h1) ∧
    add_rps o rps rc h1 = Some (tt, h2) ∧
    cands h1 o = Some s1 ∧ cands h2 o = Some s1 ∧
    len o h1 = Some (n, h1) ∧ len o h2 = Some (n, h2).
Proof.
  intros (a & Ha & Hs)%cands_Some.
  set (new := list_to_set (map (λ rp, mkRPCandidate rp.1 rp.2 rc) rps) : cset).
  pose proof (add_rps_exact h o rps rc a s Ha Hs) as Hrun1.
  fold new in Hrun1.
  set (h1 := Heap (lists h)
                  (<[a := s ∪ new]> (<[fresh (dom (sets h)) := new]> (sets h))))
    in *.
  assert (cands h1 o = Some (s ∪ new)) as Hc1.
  { unfold h1. rewrite (cands_insert_set _ _ _ _ _ a) by done. by rewrite decide_True. }
  pose proof Hc1 as (a1 & Ha1 & Hs1)%cands_Some.
  pose proof (add_rps_exact h1 o rps rc a1 (s ∪ new) Ha1 Hs1) as Hrun2.
  fold new in Hrun2.
  eexists h1, _, (s ∪ new), (size (s ∪ new)).
  split; [done|]. split; [exact Hrun2|]. split; [done|].
  assert (s ∪ new ∪ new = s ∪ new) as Hsame.
  { apply leibniz_equiv. intros p. rewrite !elem_of_union. tauto. }
  split.
  - rewrite (cands_insert_set _ _ _ _ _ a1) by done. by rewrite decide_True, Hsame.
  - split; [by apply len_run|]. apply len_run.
    rewrite (cands_insert_set _ _ _ _ _ a1) by done. by rewrite decide_True, Hsame.
Qed.

Lemma add_rps_twice_witness :
  cands scenario_heap 1 = Some scenario_self ∧
  ∃ h1 h2 s1 n,
    add_rps 1 [("p1", "p1")] "DISK" scenario_heap = Some (tt, h1) ∧
    add_rps 1 [("p1", "p1")] "DISK" h1 = Some (tt, h2) ∧
    cands h1 1 = Some s1 ∧ cands h2 1 = Some s1 ∧
    len 1 h1 = Some (n, h1) ∧ len 1 h2 = Some (n, h2).
Proof.
  split; [reflexivity|].
  apply (add_rps_twice scenario_heap 1 scenario_self [("p1", "p1")] "DISK").
  reflexivity.
Defined.

(** X3. [add_rps] updates the set object in place: every list bound to
    the same set object sees the new candidates, every other list keeps
    its own. *)
Theorem add_rps_in_place h o o' s s' rps rc :
  cands h o = Some s → cands h o' = Some s' →
  ∃ h', add_rps o rps rc h = Some (tt, h') ∧
        (lists h !! o' = lists h !! o → cands h' o' = cands h' o) ∧
        (lists h !! o' ≠ lists h !! o → cands h' o' = Some s').
Proof.
  intros (a & Ha & Hs)%cands_Some (a' & Ha' & Hs')%cands_Some.
  eexists. split; [by apply add_rps_exact|]. split.
  - intros Heq. rewrite Ha, Ha' in Heq. injection Heq as ->.
    by rewrite !(cands_insert_set _ _ _ _ _ a) by done.
  - intros Hne. rewrite (cands_insert_set _ _ _ _ _ a') by done.
    rewrite decide_False by congruence.
    rewrite lookup_insert_ne; [done|].
    intros <-. by rewrite fresh_set_lookup in Hs'.
Qed.

Lemma add_rps_in_place_witness :
  let h := Heap {[ 1%positive := 1%positive; 2%positive := 1%positive;
                   3%positive := 2%positive ]}
                {[ 1%positive := scenario_self; 2%positive := scenario_other ]} in
  ∃ h', add_rps 1 [("p7", "p7")] "DISK" h = Some (tt, h') ∧
        cands h' 2 = cands h' 1 ∧
        cands h' 3 = Some scenario_other.
Proof.
  intros h.
  destruct (add_rps_in_place h 1 2 scenario_self scenario_self
              [("p7", "p7")] "DISK" eq_refl eq_refl) as (h' & Hrun & Hsh & _).
  destruct (add_rps_in_place h 1 3 scenario_self scenario_other
              [("p7", "p7")] "DISK" eq_refl eq_refl) as (h'' & Hrun' & _ & Hfr).
  rewrite Hrun in Hrun'. injection Hrun' as <-.
  exists h'. split; [exact Hrun|]. split.
  - apply Hsh. reflexivity.
  - apply Hfr. by vm_compute.
Defined.

(** ** What the mutators do to the other lists *)

(** X4. A filter binds its list to a new set object, so every other
    list keeps its candidates, also one that shared the set object. *)
Theorem filters_leave_other_lists (h : heap) (o o' : positive)
    (s s' : cset) (c : op)
    (ids : gset string) (rptuples : gset (string * string))
    (S1 S2 : gset string) :
  cands h o = Some s → cands h o' = Some s' → o' ≠ o →
  c ∈ [FilterByTree o ids; FilterByRp o rptuples;
       FilterByRpOrTree o S1; FilterByRpNorTree o S2] →
  ∃ h', run_op c h = Some (tt, h') ∧ cands h' o' = Some s'.
Proof.
  intros Hc Hc' Hne Hin.
  assert (∀ f, ∃ h', rebind_filtered f o h = Some (tt, h') ∧
                     cands h' o' = Some s') as Hall.
  { intros f.
    destruct (rebind_filtered_run f _ _ _ Hc) as (h' & Hrun & _ & _ & Hframe).
    exists h'. split; [done|]. by apply Hframe. }
  repeat (apply elem_of_cons in Hin as [->|Hin]; [apply Hall|]).
  by apply elem_of_nil in Hin.
Qed.

Lemma filters_leave_other_lists_witness :
  let h := Heap {[ 1%positive := 1%positive; 2%positive := 1%positive ]}
                {[ 1%positive := scenario_self ]} in
  ∃ h', run_op (FilterByTree 1 {[ "p3" ]}) h = Some (tt, h') ∧
        cands h' 2 = Some scenario_self.
Proof.
  intros h.
  apply (filters_leave_other_lists h 1 2 scenario_self scenario_self
           (FilterByTree 1 {[ "p3" ]}) {[ "p3" ]} ∅ ∅ ∅).
  - reflexivity.
  - reflexivity.
  - discriminate.
  - apply list_elem_of_here.
Defined.

Lemma merge_both_exact h A B a b sa sb :
  lists h !! A = Some a → sets h !! a = Some sa →
  lists h !! B = Some b → sets h !! b = Some sb →
  sa ≠ ∅ → sb ≠ ∅ →
  merge_common_trees A B h =
    Some (tt,
          Heap (<[A := fresh (dom (<[a := sa ∪ sb]> (sets h)))]> (lists h))
               (<[fresh (dom (<[a := sa ∪ sb]> (sets h))) :=
                    keep_tree (set_map root_uuid sa ∩ set_map root_uuid sb)
                              (sa ∪ sb)]>
                  (<[a := sa ∪ sb]> (sets h)))).
Proof.
  intros Ha Hsa Hb Hsb Hna Hnb.
  assert (cands h A = Some sa) as HA by (apply cands_Some; eauto).
  assert (cands h B = Some sb) as HB by (apply cands_Some; eauto).
  unfold merge_common_trees.
  rewrite (bind_run _ _ _ _ _ (bool_run _ _ _ HA)).
  rewrite bool_decide_eq_true_2 by done. simpl.
  rewrite (bind_run _ _ _ _ _ (bool_run _ _ _ HB)).
  rewrite bool_decide_eq_true_2 by done. simpl.
  rewrite (bind_run _ _ _ _ _ (trees_run _ _ _ HA)).
  rewrite (bind_run _ _ _ _ _ (trees_run _ _ _ HB)).
  assert (get_attr B h = Some (b, h)) as Hget.
  { unfold get_attr. by rewrite Hb. }
  rewrite (bind_run _ _ _ _ _ Hget).
  rewrite (bind_run _ _ _ _ _ (ior_attr_exact _ _ _ _ _ _ Ha Hsa Hsb)).
  unfold filter_by_tree.
  rewrite (rebind_filtered_exact _ _ A a (sa ∪ sb)); simpl.
  - done.
  - done.
  - by rewrite lookup_insert_eq.
Qed.

Lemma keep_tree_own_trees (s : cset) :
  keep_tree (set_map root_uuid s ∩ set_map root_uuid s) (s ∪ s) = s.
Proof.
  apply leibniz_equiv. intros p. unfold keep_tree.
  rewrite elem_of_filter, elem_of_intersection, elem_of_union, elem_of_map.
  split; [tauto|]. intros Hp. split; [|tauto]. split; by exists p.
Qed.

(** X5. [A.merge_common_trees(B)] never changes the candidates of [B],
    whether the two lists share a set object, are the same list, or are
    unrelated. *)
Theorem merge_common_trees_keeps_other h A B sa sb :
  cands h A = Some sa → cands h B = Some sb →
  ∃ h', merge_common_trees A B h = Some (tt, h') ∧ cands h' B = Some sb.
Proof.
  intros HA HB. destruct (decide (sa = ∅)) as [->|Hna].
  - destruct (merge_self_empty _ _ _ _ HA HB)
      as (h' & Hrun & HA' & _ & _ & _ & Hframe).
    exists h'. split; [done|].
    destruct (decide (B = A)) as [->|Hne]; [done|]. by apply Hframe.
  - destruct (decide (sb = ∅)) as [->|Hnb].
    { exists h. by rewrite (merge_other_empty _ _ _ _ HA HB Hna). }
    pose proof HA as (a & Ha & Hsa)%cands_Some.
    pose proof HB as (b & Hb & Hsb)%cands_Some.
    eexists. split; [by apply (merge_both_exact h A B a b sa sb)|].
    destruct (decide (B = A)) as [->|Hne].
    + assert (a = b) as <- by congruence.
      assert (sa = sb) as <- by congruence.
      apply cands_Some. eexists. simpl. rewrite !lookup_insert_eq.
      by rewrite keep_tree_own_trees.
    + apply cands_Some. exists b. simpl.
      rewrite lookup_insert_ne by done. split; [done|].
      rewrite lookup_insert_ne.
      2:{ intros Heq. pose proof (is_fresh (dom (<[a := sa ∪ sb]> (sets h))))
            as Hfresh. apply Hfresh. rewrite Heq.
          apply elem_of_dom. destruct (decide (a = b)) as [->|Hab].
          - rewrite lookup_insert_eq. eauto.
          - rewrite lookup_insert_ne by done. eauto. }
      destruct (decide (a = b)) as [->|Hab].
      * rewrite lookup_insert_eq. f_equal.
        assert (sa = sb) as -> by congruence.
        apply leibniz_equiv. intros p. rewrite elem_of_union. tauto.
      * by rewrite lookup_insert_ne.
Qed.

Lemma merge_common_trees_keeps_other_witness :
  cands scenario_heap 1 = Some scenario_self ∧
  cands scenario_heap 2 = Some scenario_other ∧
  ∃ h', merge_common_trees 1 2 scenario_heap = Some (tt, h') ∧
        cands h' 2 = Some scenario_other.
Proof.
  split; [reflexivity|]. split; [reflexivity|].
  apply (merge_common_trees_keeps_other scenario_heap 1 2
           scenario_self scenario_other); reflexivity.
Defined.

(** X6. When both lists hold candidates, the union is written into the
    set object [A] was bound to: a third list bound to that object is
    left with the whole union, not with the filtered result. *)
Theorem merge_common_trees_third_list h A B C sa sb :
  cands h A = Some sa → cands h B = Some sb → sa ≠ ∅ → sb ≠ ∅ →
  C ≠ A → lists h !! C = lists h !! A →
  ∃ h', merge_common_trees A B h = Some (tt, h') ∧
        cands h' C = Some (sa ∪ sb).
Proof.
  intros (a & Ha & Hsa)%cands_Some (b & Hb & Hsb)%cands_Some Hna Hnb Hne Hsh.
  eexists. split; [by apply (merge_both_exact h A B a b sa sb)|].
  apply cands_Some. exists a. simpl. rewrite lookup_insert_ne by done.
  split; [congruence|].
  rewrite lookup_insert_ne; [by rewrite lookup_insert_eq|].
  intros Heq. apply (is_fresh (dom (<[a := sa ∪ sb]> (sets h)))).
  rewrite Heq. apply elem_of_dom. rewrite lookup_insert_eq. eauto.
Qed.

Lemma merge_common_trees_third_list_witness :
  let sa : cset := {[ mkRPCandidate "p1" "p1" "DISK" ]} in
  let sb : cset := {[ mkRPCandidate "p4" "p3" "VCPU" ]} in
  let h := Heap {[ 1%positive := 1%positive; 2%positive := 2%positive;
                   3%positive := 1%positive ]}
                {[ 1%positive := sa; 2%positive := sb ]} in
  ∃ h', merge_common_trees 1 2 h = Some (tt, h') ∧
        cands h' 3 = Some (sa ∪ sb).
Proof.
  intros sa sb h.
  apply (merge_common_trees_third_list h 1 2 3 sa sb).
  - reflexivity.
  - reflexivity.
  - apply (bool_decide_unpack _). vm_compute. exact I.
  - apply (bool_decide_unpack _). vm_compute. exact I.
  - discriminate.
  - reflexivity.
Defined.

(** ** merge_common_trees as an operation on candidate sets *)

Lemma trees_keep_common (sa sb : cset) :
  set_map root_uuid
    (keep_tree (set_map root_uuid sa ∩ set_map root_uuid sb) (sa ∪ sb))
  = (set_map root_uuid sa ∩ set_map root_uuid sb : gset string).
Proof.
  apply leibniz_equiv. intros r. unfold keep_tree. rewrite elem_of_map. split.
  - intros (p & -> & [Hp _]%elem_of_filter). exact Hp.
  - intros Hr. pose proof Hr as [(p & -> & Hp)%elem_of_map _]%elem_of_intersection.
    exists p. split; [done|]. apply elem_of_filter. split; [done|].
    apply elem_of_union. by left.
Qed.

(** X7. When both lists hold candidates, the trees of [A] after the
    merge are exactly the trees that [A] and [B] had in common. *)
Theorem merge_common_trees_trees h A B sa sb :
  cands h A = Some sa → cands h B = Some sb → sa ≠ ∅ → sb ≠ ∅ →
  ∃ ta tb h',
    trees A h = Some (ta, h) ∧ trees B h = Some (tb, h) ∧
    merge_common_trees A B h = Some (tt, h') ∧
    trees A h' = Some (ta ∩ tb, h').
Proof.
  intros HA HB Hna Hnb.
  destruct (merge_both_nonempty _ _ _ _ _ HA HB Hna Hnb)
    as (h' & Hrun & HA' & _ & _).
  eexists _, _, h'. split; [by apply trees_run|].
  split; [by apply trees_run|]. split; [done|].
  rewrite (trees_run _ _ _ HA'). by rewrite trees_keep_common.
Qed.

Lemma merge_common_trees_trees_witness :
  cands scenario_heap 1 = Some scenario_self ∧
  cands scenario_heap 2 = Some scenario_other ∧
  ∃ ta tb h',
    trees 1 scenario_heap = Some (ta, scenario_heap) ∧
    trees 2 scenario_heap = Some (tb, scenario_heap) ∧
    merge_common_trees 1 2 scenario_heap = Some (tt, h') ∧
    trees 1 h' = Some (ta ∩ tb, h').
Proof.
  split; [reflexivity|]. split; [reflexivity|].
  apply (merge_common_trees_trees scenario_heap 1 2
           scenario_self scenario_other).
  - reflexivity.
  - reflexivity.
  - apply (bool_decide_unpack _). vm_compute. exact I.
  - apply (bool_decide_unpack _). vm_compute. exact I.
Defined.

(** X8. The candidates [A] is left with by [A.merge_common_trees(B)]
    are the candidates [B] is left with by [B.merge_common_trees(A)],
    empty lists included. *)
Theorem merge_common_trees_commutes h A B sa sb :
  cands h A = Some sa → cands h B = Some sb →
  ∃ h1 h2 s,
    merge_common_trees A B h = Some (tt, h1) ∧
    merge_common_trees B A h = Some (tt, h2) ∧
    cands h1 A = Some s ∧ cands h2 B = Some s.
Proof.
  intros HA HB. destruct (decide (sa = ∅)) as [->|Hna].
  - destruct (merge_self_empty _ _ _ _ HA HB) as (h1 & Hrun1 & HA1 & _).
    destruct (decide (sb = ∅)) as [->|Hnb].
    + destruct (merge_self_empty _ _ _ _ HB HA) as (h2 & Hrun2 & HB2 & _).
      by exists h1, h2, ∅.
    + exists h1, h, sb.
      by rewrite (merge_other_empty _ _ _ _ HB HA Hnb).
  - destruct (decide (sb = ∅)) as [->|Hnb].
    + destruct (merge_self_empty _ _ _ _ HB HA) as (h2 & Hrun2 & HB2 & _).
      exists h, h2, sa.
      by rewrite (merge_other_empty _ _ _ _ HA HB Hna).
    + destruct (merge_both_nonempty _ _ _ _ _ HA HB Hna Hnb)
        as (h1 & Hrun1 & HA1 & _).
      destruct (merge_both_nonempty _ _ _ _ _ HB HA Hnb Hna)
        as (h2 & Hrun2 & HB2 & _).
      eexists h1, h2, _. split; [done|]. split; [done|].
      split; [exact HA1|]. rewrite HB2. f_equal.
      apply leibniz_equiv. intros p. unfold keep_tree.
      rewrite !elem_of_filter, !elem_of_intersection, !elem_of_union. tauto.
Qed.

Lemma merge_common_trees_commutes_witness :
  cands scenario_heap 1 = Some scenario_self ∧
  cands scenario_heap 2 = Some scenario_other ∧
  ∃ h1 h2 s,
    merge_common_trees 1 2 scenario_heap = Some (tt, h1) ∧
    merge_common_trees 2 1 scenario_heap = Some (tt, h2) ∧
    cands h1 1 = Some s ∧ cands h2 2 = Some s.
Proof.
  split; [reflexivity|]. split; [reflexivity|].
  apply (merge_common_trees_commutes scenario_heap 1 2
           scenario_self scenario_other); reflexivity.
Defined.

(** ** What the filters keep *)

(** X9. After [filter_by_tree(ids)] the trees of the list are its former
    trees that are in [ids]: no candidate of a tree outside [ids] is
    left, and no tree inside [ids] is lost. *)
Theorem filter_by_tree_trees h o s (ids : gset string) :
  cands h o = Some s →
  ∃ t h', trees o h = Some (t, h) ∧
          filter_by_tree o ids h = Some (tt, h') ∧
          trees o h' = Some (t ∩ ids, h').
Proof.
  intros Hc.
  destruct (rebind_filtered_run (keep_tree ids) _ _ _ Hc)
    as (h' & Hrun & Hc' & _).
  eexists _, h'. split; [by apply trees_run|]. split; [done|].
  rewrite (trees_run _ _ _ Hc'). do 2 f_equal.
  apply leibniz_equiv. intros r. unfold keep_tree.
  rewrite elem_of_intersection, !elem_of_map. split.
  - intros (p & -> & [Hp Hin]%elem_of_filter). split; [by exists p|done].
  - intros [(p & -> & Hin) Hp]. exists p. split; [done|].
    by apply elem_of_filter.
Qed.

Lemma filter_by_tree_trees_witness :
  cands scenario_heap 1 = Some scenario_self ∧
  ∃ t h', trees 1 scenario_heap = Some (t, scenario_heap) ∧
          filter_by_tree 1 {[ "p3"; "p8" ]} scenario_heap = Some (tt, h') ∧
          trees 1 h' = Some (t ∩ {[ "p3"; "p8" ]}, h').
Proof.
  split; [reflexivity|].
  apply (filter_by_tree_trees scenario_heap 1 scenario_self {[ "p3"; "p8" ]}).
  reflexivity.
Defined.

Lemma pair_meets (u r : string) (S : gset string) :
  ({[u; r]} : gset string) ∩ S ≠ ∅ ↔ u ∈ S ∨ r ∈ S.
Proof.
  split.
  - intros Hne. apply set_choose_L in Hne as [x Hx].
    apply elem_of_intersection in Hx as [Hx HS].
    apply elem_of_union in Hx as [->%elem_of_singleton| ->%elem_of_singleton];
      auto.
  - intros Hin Hempty.
    assert (∀ x, x ∈ ({[u; r]} : gset string) → x ∈ S → False) as Hno.
    { intros x Hx HS. apply (not_elem_of_empty (C:=gset string) x).
      rewrite <- Hempty. by apply elem_of_intersection. }
    destruct Hin as [Hin|Hin]; eapply Hno; try exact Hin.
    + apply elem_of_union_l. by apply elem_of_singleton.
    + apply elem_of_union_r. by apply elem_of_singleton.
Qed.

(** X10. [filter_by_rp_or_tree(S)] keeps exactly the candidates whose
    provider or root is in [S]; after [filter_by_rp_nor_tree(S)] no
    provider or root involved in the list is in [S]. *)
Theorem filter_by_rp_or_nor_tree_kept h o s (S : gset string) :
  cands h o = Some s →
  (∃ h' s', filter_by_rp_or_tree o S h = Some (tt, h') ∧
            cands h' o = Some s' ∧
            ∀ p, p ∈ s' ↔ p ∈ s ∧ (uuid p ∈ S ∨ root_uuid p ∈ S)) ∧
  (∃ h' al, filter_by_rp_nor_tree o S h = Some (tt, h') ∧
            all_rps o h' = Some (al, h') ∧ al ## S).
Proof.
  intros Hc. split.
  - destruct (rebind_filtered_run (keep_rp_or_tree S) _ _ _ Hc)
      as (h' & Hrun & Hc' & _).
    eexists h', _. split; [done|]. split; [exact Hc'|].
    intros p. unfold keep_rp_or_tree. rewrite elem_of_filter, pair_meets. tauto.
  - destruct (rebind_filtered_run (keep_rp_nor_tree S) _ _ _ Hc)
      as (h' & Hrun & Hc' & _).
    eexists h', _. split; [done|]. split; [by apply all_rps_run|].
    intros x Hx HS. unfold keep_rp_nor_tree in Hx.
    apply elem_of_union in Hx
      as [(p & -> & [Hp _]%elem_of_filter)%elem_of_map
         |(p & -> & [Hp _]%elem_of_filter)%elem_of_map];
      apply Hp, pair_meets; auto.
Qed.

Lemma filter_by_rp_or_nor_tree_kept_witness :
  cands scenario_heap 1 = Some scenario_self ∧
  (∃ h' s', filter_by_rp_or_tree 1 {[ "p1" ]} scenario_heap = Some (tt, h') ∧
            cands h' 1 = Some s' ∧
            ∀ p, p ∈ s' ↔
                 p ∈ scenario_self ∧
                 (uuid p ∈ ({[ "p1" ]} : gset string) ∨
                  root_uuid p ∈ ({[ "p1" ]} : gset string))) ∧
  (∃ h' al, filter_by_rp_nor_tree 1 {[ "p1" ]} scenario_heap = Some (tt, h') ∧
            all_rps 1 h' = Some (al, h') ∧ al ## ({[ "p1" ]} : gset string)).
Proof.
  split; [reflexivity|].
  apply (filter_by_rp_or_nor_tree_kept scenario_heap 1 scenario_self {[ "p1" ]}).
  reflexivity.
Defined.

Lemma filter_op_rebinds o c :
  is_filter_on o c →
  ∃ (P : RPCandidate → Prop) (HP : ∀ p, Decision (P p)),
    run_op c = rebind_filtered (filter P) o.
Proof.
  destruct c as [| self ids | self rpt | self S | self S |]; simpl;
    try done; intros ->.
  - by exists (λ p, root_uuid p ∈ ids), _.
  - by exists (λ p, (uuid p, root_uuid p) ∈ rpt), _.
  - by exists (λ p, ({[uuid p; root_uuid p]} : gset string) ∩ S ≠ ∅), _.
  - by exists (λ p, ¬ (({[uuid p; root_uuid p]} : gset string) ∩ S ≠ ∅)), _.
Qed.

(** X11. Two filters applied to a list, in either order, leave the same
    candidates. *)
Theorem filters_commute h o s c1 c2 :
  cands h o = Some s → is_filter_on o c1 → is_filter_on o c2 →
  ∃ h1 h12 h2 h21 s',
    run_op c1 h = Some (tt, h1) ∧ run_op c2 h1 = Some (tt, h12) ∧
    run_op c2 h = Some (tt, h2) ∧ run_op c1 h2 = Some (tt, h21) ∧
    cands h12 o = Some s' ∧ cands h21 o = Some s'.
Proof.
  intros Hc (P & HP & ->)%filter_op_rebinds (Q & HQ & ->)%filter_op_rebinds.
  destruct (rebind_filtered_run (filter P) _ _ _ Hc) as (h1 & Hr1 & Hc1 & _).
  destruct (rebind_filtered_run (filter Q) _ _ _ Hc1) as (h12 & Hr12 & Hc12 & _).
  destruct (rebind_filtered_run (filter Q) _ _ _ Hc) as (h2 & Hr2 & Hc2 & _).
  destruct (rebind_filtered_run (filter P) _ _ _ Hc2) as (h21 & Hr21 & Hc21 & _).
  exists h1, h12, h2, h21, (filter Q (filter P s)).
  split_and!; [done..|]. rewrite Hc21. f_equal.
  apply leibniz_equiv. intros p. rewrite !elem_of_filter. tauto.
Qed.

Lemma filters_commute_witness :
  let c1 := FilterByTree 1 {[ "p1" ]} in
  let c2 := FilterByRpNorTree 1 {[ "p2" ]} in
  ∃ h1 h12 h2 h21 s',
    run_op c1 scenario_heap = Some (tt, h1) ∧ run_op c2 h1 = Some (tt, h12) ∧
    run_op c2 scenario_heap = Some (tt, h2) ∧ run_op c1 h2 = Some (tt, h21) ∧
    cands h12 1 = Some s' ∧ cands h21 1 = Some s'.
Proof.
  intros c1 c2.
  apply (filters_commute scenario_heap 1 scenario_self c1 c2); reflexivity.
Defined.

(** X12. With an empty argument, [filter_by_tree], [filter_by_rp] and
    [filter_by_rp_or_tree] leave no candidate, and
    [filter_by_rp_nor_tree] leaves them all. *)
Theorem filters_empty_argument h o s :
  cands h o = Some s →
  (∃ h', filter_by_tree o ∅ h = Some (tt, h') ∧ cands h' o = Some ∅) ∧
  (∃ h', filter_by_rp o ∅ h = Some (tt, h') ∧ cands h' o = Some ∅) ∧
  (∃ h', filter_by_rp_or_tree o ∅ h = Some (tt, h') ∧ cands h' o = Some ∅) ∧
  (∃ h', filter_by_rp_nor_tree o ∅ h = Some (tt, h') ∧ cands h' o = Some s).
Proof.
  intros Hc. split_and!.
  - destruct (rebind_filtered_run (keep_tree ∅) _ _ _ Hc)
      as (h' & Hrun & Hc' & _).
    exists h'. split; [done|]. rewrite Hc'. f_equal.
    apply leibniz_equiv. intros p. unfold keep_tree. rewrite elem_of_filter.
    split; [by intros [?%not_elem_of_empty _]|by intros ?%not_elem_of_empty].
  - destruct (rebind_filtered_run (keep_rp ∅) _ _ _ Hc)
      as (h' & Hrun & Hc' & _).
    exists h'. split; [done|]. rewrite Hc'. f_equal.
    apply leibniz_equiv. intros p. unfold keep_rp. rewrite elem_of_filter.
    split; [by intros [?%not_elem_of_empty _]|by intros ?%not_elem_of_empty].
  - destruct (rebind_filtered_run (keep_rp_or_tree ∅) _ _ _ Hc)
      as (h' & Hrun & Hc' & _).
    exists h'. split; [done|]. rewrite Hc'. f_equal.
    apply leibniz_equiv. intros p. unfold keep_rp_or_tree.
    rewrite elem_of_filter, pair_meets.
    split; [|by intros ?%not_elem_of_empty].
    by intros [[?%not_elem_of_empty|?%not_elem_of_empty] _].
  - destruct (rebind_filtered_run (keep_rp_nor_tree ∅) _ _ _ Hc)
      as (h' & Hrun & Hc' & _).
    exists h'. split; [done|]. rewrite Hc'. f_equal.
    apply leibniz_equiv. intros p. unfold keep_rp_nor_tree.
    rewrite elem_of_filter, pair_meets. split; [tauto|].
    intros Hp. split; [|done].
    by intros [?%not_elem_of_empty|?%not_elem_of_empty].
Qed.

Lemma filters_empty_argument_witness :
  cands scenario_heap 1 = Some scenario_self ∧
  (∃ h', filter_by_tree 1 ∅ scenario_heap = Some (tt, h') ∧
         cands h' 1 = Some ∅) ∧
  (∃ h', filter_by_rp 1 ∅ scenario_heap = Some (tt, h') ∧
         cands h' 1 = Some ∅) ∧
  (∃ h', filter_by_rp_or_tree 1 ∅ scenario_heap = Some (tt, h') ∧
         cands h' 1 = Some ∅) ∧
  (∃ h', filter_by_rp_nor_tree 1 ∅ scenario_heap = Some (tt, h') ∧
         cands h' 1 = Some scenario_self).
Proof.
  split; [reflexivity|].
  apply (filters_empty_argument scenario_heap 1 scenario_self). reflexivity.
Defined.

(** ** The constructor *)

Lemma init_exact h a s :
  sets h !! a = Some s →
  init (Some a) h =
    if decide (s = ∅)
    then Some (fresh (dom (lists h)),
               Heap (<[fresh (dom (lists h)) := fresh (dom (sets h))]> (lists h))
                    (<[fresh (dom (sets h)) := ∅]> (sets h)))
    else Some (fresh (dom (lists h)),
               Heap (<[fresh (dom (lists h)) := a]> (lists h)) (sets h)).
Proof.
  intros Hs. unfold init. rewrite Hs.
  destruct (decide (s = ∅)) as [->|Hne].
  - rewrite bool_decide_eq_true_2; [done|]. apply size_empty.
  - rewrite bool_decide_eq_false_2; [done|].
    intros Hsz. by apply size_empty_iff, leibniz_equiv in Hsz.
Qed.

(** X13. [RPCandidateList(A.rps_info)] is a new list with the candidates
    of [A].  If [A] holds candidates the two lists are bound to one set
    object, and what is added to the new list is added to [A]; if [A]
    is empty the new list has a set of its own and [A] stays empty. *)
Theorem init_from_rps_info h A sa rps rc :
  cands h A = Some sa →
  ∃ a N h1 h2,
    rps_info A h = Some (a, h) ∧
    init (Some a) h = Some (N, h1) ∧
    (N ∉ dom (lists h)) ∧
    cands h1 A = Some sa ∧ cands h1 N = Some sa ∧
    add_rps N rps rc h1 = Some (tt, h2) ∧
    (sa ≠ ∅ → cands h2 A = cands h2 N) ∧
    (sa = ∅ → cands h2 A = Some ∅).
Proof.
  intros (a & Ha & Hs)%cands_Some.
  set (N := fresh (dom (lists h))).
  assert (N ∉ dom (lists h)) as HN by apply is_fresh.
  assert (A ≠ N) as HAN.
  { intros ->. by apply HN, elem_of_dom. }
  assert (a ≠ fresh (dom (sets h))) as Haf.
  { intros ->. by rewrite fresh_set_lookup in Hs. }
  exists a, N. rewrite (init_exact h a sa Hs). fold N.
  destruct (decide (sa = ∅)) as [->|Hne].
  - set (h1 := Heap (<[N := fresh (dom (sets h))]> (lists h))
                    (<[fresh (dom (sets h)) := ∅]> (sets h))).
    assert (lists h1 !! N = Some (fresh (dom (sets h)))) as HN1.
    { simpl. by rewrite lookup_insert_eq. }
    assert (sets h1 !! fresh (dom (sets h)) = Some ∅) as HsN1.
    { simpl. by rewrite lookup_insert_eq. }
    assert (lists h1 !! A = Some a) as HA1.
    { simpl. by rewrite lookup_insert_ne. }
    assert (sets h1 !! a = Some ∅) as HsA1.
    { simpl. by rewrite lookup_insert_ne. }
    eexists h1, _. split; [unfold rps_info, get_attr; by rewrite Ha|].
    split; [done|]. split; [done|].
    split; [apply cands_Some; eauto|]. split; [apply cands_Some; eauto|].
    split; [by apply (add_rps_exact h1 N rps rc (fresh (dom (sets h))) ∅)|].
    split; [done|]. intros _.
    rewrite (cands_insert_set _ _ _ _ _ a) by done.
    rewrite decide_False by done.
    rewrite lookup_insert_ne; [done|].
    intros Heq. apply (is_fresh (dom (sets h1))). rewrite Heq.
    apply elem_of_dom. eauto.
  - set (h1 := Heap (<[N := a]> (lists h)) (sets h)).
    assert (lists h1 !! N = Some a) as HN1.
    { simpl. by rewrite lookup_insert_eq. }
    assert (lists h1 !! A = Some a) as HA1.
    { simpl. by rewrite lookup_insert_ne. }
    eexists h1, _. split; [unfold rps_info, get_attr; by rewrite Ha|].
    split; [done|]. split; [done|].
    split; [apply cands_Some; eauto|]. split; [apply cands_Some; eauto|].
    split; [by apply (add_rps_exact h1 N rps rc a sa)|].
    split; [|done]. intros _.
    by rewrite !(cands_insert_set _ _ _ _ _ a) by done.
Qed.

Lemma init_from_rps_info_witness :
  cands scenario_heap 1 = Some scenario_self ∧
  ∃ a N h1 h2,
    rps_info 1 scenario_heap = Some (a, scenario_heap) ∧
    init (Some a) scenario_heap = Some (N, h1) ∧
    (N ∉ dom (lists scenario_heap)) ∧
    cands h1 1 = Some scenario_self ∧ cands h1 N = Some scenario_self ∧
    add_rps N [("p6", "p6")] "DISK" h1 = Some (tt, h2) ∧
    (scenario_self ≠ ∅ → cands h2 1 = cands h2 N) ∧
    (scenario_self = ∅ → cands h2 1 = Some ∅).
Proof.
  split; [reflexivity|].
  apply (init_from_rps_info scenario_heap 1 scenario_self
           [("p6", "p6")] "DISK").
  reflexivity.
Defined.

End RPCandidatesFacts.

(** * Properties of the consumer operations *)

Module ConsumerFacts.
Import ConsumerObj.

Local Open Scope Z_scope.

(** ** Query texts and their arguments *)

Lemma percent_create_query a b c d :
  ∃ q, percent create_query [a; b; c; d] = Ok q.
Proof. by eexists. Qed.

Lemma percent_increment_query a b c :
  ∃ q, percent increment_query [a; b; c] = Ok q.
Proof. by eexists. Qed.

Lemma percent_update_swap_query a b c :
  ∃ q, percent update_swap_query [a; b; c] = Ok q.
Proof. by eexists. Qed.

(** The text of the query that drops the owner has two conversions; the
    source formats it with three values. *)
Lemma percent_update_drop_query a b c :
  percent update_drop_query [a; b; c] = Raise TypeError.
Proof. reflexivity. Qed.

(** ** Stored generations *)

Lemma consumer_generation_Some u gen n :
  consumer_generation u n = Some gen ↔ is_consumer u gen n = true.
Proof.
  destruct n as [| |u' g' c t|]; simpl; try (split; discriminate).
  rewrite andb_true_iff, !bool_decide_eq_true.
  case_bool_decide as Hu; split.
  - by intros [= ->].
  - by intros [_ ->].
  - discriminate.
  - by intros [? _].
Qed.

Lemma elem_of_stored_generations u gen g :
  gen ∈ stored_generations u g ↔
  ∃ i n, nodes g !! i = Some n ∧ is_consumer u gen n = true.
Proof.
  unfold stored_generations. rewrite list_elem_of_omap. split.
  - intros (n & Hn & Hgen). apply list_elem_of_fmap in Hn as ([i n'] & -> & Hin).
    apply elem_of_map_to_list in Hin. exists i, n'.
    split; [done|]. by apply consumer_generation_Some.
  - intros (i & n & Hi & Hn). exists n. split.
    + apply list_elem_of_fmap. exists (i, n). split; [done|].
      by apply elem_of_map_to_list.
    + by apply consumer_generation_Some.
Qed.

Lemma match_set_generation_no_match u gen new g :
  (match_set_generation u gen new g).1 = [] ↔ gen ∉ stored_generations u g.
Proof.
  unfold match_set_generation. simpl.
  rewrite elem_of_stored_generations. split.
  - intros Hnil%fmap_nil_inv%fmap_nil_inv%map_to_list_empty_iff (i & n & Hi & Hn).
    assert (filter (λ kv : positive * node, is_consumer u gen kv.2 = true)
                   (nodes g) !! i = Some n) as Hf.
    { by apply map_lookup_filter_Some. }
    rewrite Hnil in Hf. by rewrite lookup_empty in Hf.
  - intros Hno.
    assert (filter (λ kv : positive * node, is_consumer u gen kv.2 = true)
                   (nodes g) = ∅) as ->.
    { apply map_empty. intros i.
      destruct (filter _ (nodes g) !! i) as [n|] eqn:Hf; [|done].
      apply map_lookup_filter_Some in Hf as [Hi Hn]. destruct Hno. eauto. }
    by rewrite map_to_list_empty.
Qed.

Lemma consumer_generation_update u gen new n :
  consumer_generation u
    (if is_consumer u gen n then set_generation new n else n) =
  (λ x, if bool_decide (x = gen) then new else x) <$> consumer_generation u n.
Proof.
  destruct n as [| |u' g' c t|]; simpl; try done.
  repeat case_bool_decide; simpl; repeat case_bool_decide; simpl;
    congruence.
Qed.

Lemma match_set_generation_stored u gen new g :
  stored_generations u (match_set_generation u gen new g).2 =
  (λ x, if bool_decide (x = gen) then new else x) <$> stored_generations u g.
Proof.
  unfold stored_generations, match_set_generation. simpl.
  rewrite map_to_list_fmap.
  induction (map_to_list (nodes g)) as [|[i n] l IH]; [done|].
  csimpl. rewrite consumer_generation_update, IH.
  by destruct (consumer_generation u n).
Qed.

(** ** create and increment_generation *)

Lemma merge_consumer_stored u gen c t g :
  ∃ i, nodes (merge_consumer u gen c t g).2 !! i = Some (CONSUMER u gen c t).
Proof.
  unfold merge_consumer. case_bool_decide as Hin; simpl.
  - apply list_elem_of_fmap in Hin as ([i n] & -> & Hin).
    exists i. by apply elem_of_map_to_list.
  - eexists. apply lookup_insert_eq.
Qed.

Lemma merge_consumer_first u gen c t g :
  stored_generations u g = [] →
  stored_generations u (merge_consumer u gen c t g).2 = [gen].
Proof.
  intros Hnone. unfold merge_consumer. case_bool_decide as Hin; simpl.
  - assert (gen ∈ stored_generations u g) as Hgen.
    { apply list_elem_of_omap. eexists. split; [exact Hin|].
      simpl. by rewrite bool_decide_eq_true_2. }
    rewrite Hnone in Hgen. by apply elem_of_nil in Hgen.
  - apply Permutation_singleton_r. unfold stored_generations in *. simpl.
    rewrite map_to_list_insert
      by (apply not_elem_of_dom, is_fresh).
    csimpl. rewrite bool_decide_eq_true_2 by done. by rewrite Hnone.
Qed.

Lemma create_run self g :
  ∃ q, percent create_query
         [uuid self; str_int (or_zero (generation self));
          if truthy_int (created_at self)
          then str_opt_int (created_at self) else "timestamp()"%string;
          if truthy_int (updated_at self)
          then str_opt_int (updated_at self) else "timestamp()"%string]
       = Ok q ∧
  create self g =
    Ok (with_generation (or_zero (generation self)) self,
        (merge_consumer (uuid self) (or_zero (generation self))
           (if truthy_int (created_at self)
            then or_zero (created_at self) else clock g)
           (if truthy_int (updated_at self)
            then or_zero (updated_at self) else clock g) g).2).
Proof.
  unfold create.
  destruct (percent_create_query (uuid self)
              (str_int (or_zero (generation self)))
              (if truthy_int (created_at self)
               then str_opt_int (created_at self) else "timestamp()"%string)
              (if truthy_int (updated_at self)
               then str_opt_int (updated_at self) else "timestamp()"%string))
    as [q Hq].
  exists q. split; [done|]. rewrite Hq. simpl.
  by destruct (merge_consumer _ _ _ _ g).
Qed.

Lemma increment_generation_run self g gen :
  generation self = Some gen →
  increment_generation self g =
    if bool_decide (gen ∈ stored_generations (uuid self) g)
    then Ok (with_generation (gen + 1) self,
             (match_set_generation (uuid self) gen (gen + 1) g).2)
    else Raise ConcurrentUpdateDetected.
Proof.
  intros Hgen. unfold increment_generation. rewrite Hgen.
  destruct (percent_increment_query (uuid self) (str_int gen)
              (str_int (gen + 1))) as [q ->]. simpl.
  pose proof (match_set_generation_no_match (uuid self) gen (gen + 1) g) as Hno.
  unfold match_set_generation in *. simpl in *.
  destruct (set_generation (gen + 1) <$> _) as [|n res].
  - rewrite bool_decide_eq_false_2; [done|]. by apply Hno.
  - rewrite bool_decide_eq_true_2; [done|].
    destruct (decide (gen ∈ stored_generations (uuid self) g)) as [|Hni];
      [done|]. by apply Hno in Hni.
Qed.




(** ** delete_consumers_if_no_allocations *)

(** C4. A consumer without any [USES] relationship is still stored after
    the call: the function returns before it runs the query that would
    have removed the node. *)
Theorem delete_consumers_if_no_allocations_keeps_unused :
  let g := Graph {[ 1%positive := CONSUMER "c1" 0 100 100 ]} [] 100 in
  unused_consumer g 1 = true ∧
  delete_consumers_if_no_allocations ["c1"%string] g = Ok (tt, g) ∧
  nodes g !! 1%positive = Some (CONSUMER "c1" 0 100 100) ∧
  nodes (detach_delete_unused g) !! 1%positive = None.
Proof.
  intros g. split; [by vm_compute|]. split; [reflexivity|].
  split; [reflexivity|]. by vm_compute.
Qed.

(** Whatever is stored, the call changes nothing. *)
Lemma delete_consumers_if_no_allocations_noop consumer_uuids g :
  delete_consumers_if_no_allocations consumer_uuids g = Ok (tt, g).
Proof. reflexivity. Qed.

(** ** update *)

(** Without a user the query text is formatted with one value too many,
    and nothing reaches the store. *)
Lemma update_without_user self g :
  truthy_str (match user self with Some u => u | None => None end) = false →
  update self g = Raise TypeError.
Proof.
  intros Hfalse. unfold update. rewrite Hfalse.
  by rewrite percent_update_drop_query.
Qed.

(** [update] never writes a node, so no stored generation changes, and
    it leaves the object as it was. *)
Lemma update_keeps_generation self g self' g' :
  update self g = Ok (self', g') → self' = self ∧ nodes g' = nodes g.
Proof.
  unfold update. destruct (truthy_str _).
  - destruct (percent_update_swap_query (uuid self)
                (str_opt_int (generation self))
                (str_opt (match user self with Some u => u | None => None end)))
      as [q ->]. simpl.
    destruct (generation self) as [gen|]; [|discriminate].
    unfold swap_owner.
    destruct (path_consumer _ _ _ <$> _) as [|r rows];
      [by intros [= <- <-]|].
    destruct (matching _ g) as [|us users]; [discriminate|].
    by intros [= <- <-].
  - by rewrite percent_update_drop_query.
Qed.

(** C8. A consumer owned by a user, updated with no user given: the call
    raises [TypeError] and the ownership relationship stays, where the
    query it was about to send would have removed it. *)
Theorem update_without_user_keeps_owner :
  let g := Graph {[ 1%positive := USER "u1";
                    2%positive := CONSUMER "c1" 0 100 100 ]}
                 [Edge 1 OWNS 2] 100 in
  let self := mkConsumer "c1" None (Some 0) None None in
  update self g = Raise TypeError ∧
  owners g 2 = [1%positive] ∧
  owners (drop_owner "c1" 0 g) 2 = [].
Proof.
  intros g self. split; [reflexivity|]. split; by vm_compute.
Qed.

(** With a user given, the relationship is moved to that user and the
    stored generation is the same. *)
Example update_swaps_owner :
  let g := Graph {[ 1%positive := USER "u1";
                    2%positive := CONSUMER "c1" 0 100 100;
                    3%positive := USER "u2" ]}
                 [Edge 1 OWNS 2] 100 in
  let self := mkConsumer "c1" (Some (Some "u2"%string)) (Some 0) None None in
  ∃ g', update self g = Ok (self, g') ∧
        owners g' 2 = [3%positive] ∧
        stored_generations "c1" g' = [0].
Proof.
  intros g self. eexists. split; [by vm_compute|]. split; by vm_compute.
Qed.

(** An object that carries a stale generation matches no path, so the
    swap leaves the owner in place. *)
Example update_stale_generation_matches_nothing :
  let g := Graph {[ 1%positive := USER "u1";
                    2%positive := CONSUMER "c1" 1 100 100;
                    3%positive := USER "u2" ]}
                 [Edge 1 OWNS 2] 100 in
  let self := mkConsumer "c1" (Some (Some "u2"%string)) (Some 0) None None in
  update self g = Ok (self, g).
Proof. by vm_compute. Qed.

(** ** What create and increment_generation leave alone *)

Lemma merge_consumer_keeps u gen c t g :
  edges (merge_consumer u gen c t g).2 = edges g ∧
  ∀ i n, nodes g !! i = Some n →
         nodes (merge_consumer u gen c t g).2 !! i = Some n.
Proof.
  unfold merge_consumer. case_bool_decide; simpl; [done|].
  split; [done|]. intros i n Hi. rewrite lookup_insert_ne; [done|].
  intros <-. apply (is_fresh (dom (nodes g))). apply elem_of_dom. eauto.
Qed.



Lemma consumer_generation_update_other u u' gen new n :
  u' ≠ u →
  consumer_generation u'
    (if is_consumer u gen n then set_generation new n else n) =
  consumer_generation u' n.
Proof.
  intros Hne. destruct n as [| |u0 g0 c t|]; simpl; try done.
  repeat case_bool_decide; simpl; repeat case_bool_decide; congruence.
Qed.

Lemma match_set_generation_stored_other u u' gen new g :
  u' ≠ u →
  stored_generations u' (match_set_generation u gen new g).2 =
  stored_generations u' g.
Proof.
  intros Hne. unfold stored_generations, match_set_generation. simpl.
  rewrite map_to_list_fmap.
  induction (map_to_list (nodes g)) as [|[i n] l IH]; [done|].
  csimpl. by rewrite consumer_generation_update_other, IH.
Qed.





(** ** delete *)

Lemma is_consumer_uuid_of u gen n :
  is_consumer u gen n = true → is_consumer_uuid u n = true.
Proof.
  destruct n; simpl; try done. by intros [? _]%andb_true_iff.
Qed.

Lemma delete_run self g :
  delete self g = Ok (self, detach_delete_consumer (uuid self) g).
Proof. reflexivity. Qed.

Lemma detach_delete_consumer_stored u g :
  stored_generations u (detach_delete_consumer u g) = [].
Proof.
  apply elem_of_nil_inv. intros gen.
  rewrite elem_of_stored_generations. intros (i & n & Hi & Hn).
  simpl in Hi. apply map_lookup_filter_Some in Hi as [_ Hno]. simpl in Hno.
  apply is_consumer_uuid_of in Hn. congruence.
Qed.


Lemma filter_all {A} (P : A → Prop) `{!∀ x, Decision (P x)} (l : list A) :
  Forall P l → filter P l = l.
Proof.
  induction 1 as [|x l Hx _ IH]; [done|].
  rewrite filter_cons, decide_True by done. by rewrite IH.
Qed.

Lemma filter_none {A} (P : A → Prop) `{!∀ x, Decision (P x)} (l : list A) :
  Forall (λ x, ¬ P x) l → filter P l = [].
Proof.
  induction 1 as [|x l Hx _ IH]; [done|].
  by rewrite filter_cons, decide_False by done.
Qed.



(** ** update with a user *)

Lemma update_with_user_run self g new gen :
  user self = Some (Some new) → new ≠ ""%string →
  generation self = Some gen →
  update self g =
    g' ← swap_owner (uuid self) gen new g; Ok (self, g').
Proof.
  intros Huser Hnew Hgen. unfold update. rewrite Huser.
  cbv beta iota. unfold truthy_str, str_opt.
  assert (String.eqb new "" = false) as -> by by apply String.eqb_neq.
  change (negb false) with true. cbv iota.
  destruct (percent_update_swap_query (uuid self)
              (str_opt_int (generation self)) new) as [q ->].
  by rewrite Hgen.
Qed.

Lemma node_sat_stored u gen g i :
  node_sat (is_consumer u gen) g i = true → gen ∈ stored_generations u g.
Proof.
  unfold node_sat. destruct (nodes g !! i) as [n|] eqn:Hi; [|done].
  intros Hn. apply elem_of_stored_generations. eauto.
Qed.



Lemma elem_of_matching P g i :
  i ∈ matching P g ↔ node_sat P g i = true.
Proof.
  unfold matching, node_sat. rewrite list_elem_of_fmap. split.
  - intros ([j n] & -> & Hin). apply elem_of_map_to_list in Hin.
    apply map_lookup_filter_Some in Hin as [Hj HP]. simpl in *.
    by rewrite Hj.
  - destruct (nodes g !! i) as [n|] eqn:Hi; [|done]. intros HP.
    exists (i, n). split; [done|]. apply elem_of_map_to_list.
    by apply map_lookup_filter_Some.
Qed.

Lemma path_consumer_sat u gen g e :
  owns_path u gen g e = true →
  node_sat (is_consumer u gen) g (path_consumer u gen g e) = true.
Proof.
  unfold owns_path, path_consumer. intros [_ Hends]%andb_true_iff.
  destruct (node_sat (is_consumer u gen) g (dst e)) eqn:Hd; [done|].
  apply orb_true_iff in Hends as [[_ ?]%andb_true_iff|[_ ?]%andb_true_iff];
    [congruence|done].
Qed.



(** ** relate_project_and_user *)

Lemma percent_owners_query a b : ∃ q, percent owners_query [a; b] = Ok q.
Proof. by eexists. Qed.
Lemma percent_delete_user_owners_query a b :
  ∃ q, percent delete_user_owners_query [a; b] = Ok q.
Proof. by eexists. Qed.
Lemma percent_delete_consumer_owners_query a b :
  ∃ q, percent delete_consumer_owners_query [a; b] = Ok q.
Proof. by eexists. Qed.
Lemma percent_relate_query a b c : ∃ q, percent relate_query [a; b; c] = Ok q.
Proof. by eexists. Qed.

Lemma relate_project_and_user_run p u c g :
  relate_project_and_user p u c g =
    let owners := union_rows (owner_rows (is_user_uuid u) g)
                             (owner_rows (is_consumer_uuid c) g) in
    if bool_decide (owners = [Some p; Some u]) then Ok (tt, g)
    else Ok (tt, merge_ownership p u c
                   match owners with
                   | [] => g
                   | _ :: _ =>
                       delete_between (is_user_not u) (is_consumer_uuid c)
                         (delete_between (is_project_not p) (is_user_uuid u) g)
                   end).
Proof.
  unfold relate_project_and_user.
  destruct (percent_owners_query u c) as [q1 ->].
  destruct (percent_delete_user_owners_query u p) as [q2 H2].
  destruct (percent_delete_consumer_owners_query c u) as [q3 H3].
  destruct (percent_relate_query p u c) as [q4 H4].
  cbv zeta. cbn [mbind result_bind].
  case_bool_decide; [done|].
  destruct (union_rows _ _).
  - cbn [mbind result_bind]. by rewrite H4.
  - rewrite H2. cbn [mbind result_bind]. rewrite H3. cbn [mbind result_bind].
    by rewrite H4.
Qed.

(** The rows of the first query and their union *)

Lemma elem_of_distinct_from seen l x :
  x ∈ distinct_from seen l ↔ x ∈ l ∧ x ∉ seen.
Proof.
  revert seen. induction l as [|y l IH]; intros seen; simpl.
  - split; [by intros ?%elem_of_nil|by intros [?%elem_of_nil _]].
  - case_bool_decide as Hy.
    + rewrite IH, elem_of_cons. split; [tauto|].
      intros [[->|Hx] Hn]; [done|tauto].
    + rewrite !elem_of_cons, IH, not_elem_of_cons. split.
      * intros [->|[Hx [Hne Hn]]]; [by auto|tauto].
      * intros [[->|Hx] Hn]; [by left|].
        destruct (decide (x = y)) as [->|Hne]; [by left|right; tauto].
Qed.

Lemma distinct_from_seen seen l :
  Forall (λ x, x ∈ seen) l → distinct_from seen l = [].
Proof.
  induction 1 as [|x l Hx _ IH]; simpl; [done|].
  by rewrite bool_decide_eq_true_2.
Qed.

Lemma distinct_from_app_seen seen l1 l2 :
  Forall (λ x, x ∈ seen) l1 →
  distinct_from seen (l1 ++ l2) = distinct_from seen l2.
Proof.
  induction 1 as [|x l Hx _ IH]; simpl; [done|].
  by rewrite bool_decide_eq_true_2.
Qed.

Lemma union_rows_two l1 l2 (a b : option string) :
  l1 ≠ [] → Forall (λ x, x = a) l1 →
  l2 ≠ [] → Forall (λ x, x = b) l2 →
  a ≠ b → union_rows l1 l2 = [a; b].
Proof.
  intros Hn1 H1 Hn2 H2 Hab. unfold union_rows.
  destruct H1 as [|x l1 -> H1]; [done|].
  destruct H2 as [|y l2 -> H2]; [done|].
  simpl. f_equal.
  rewrite distinct_from_app_seen.
  2:{ eapply Forall_impl; [exact H1|]. intros ? ->. apply list_elem_of_here. }
  simpl. rewrite bool_decide_eq_false_2.
  2:{ intros ?%list_elem_of_singleton. congruence. }
  f_equal. apply distinct_from_seen.
  eapply Forall_impl; [exact H2|]. intros ? ->. apply list_elem_of_here.
Qed.

Lemma elem_of_union_rows l1 l2 x :
  x ∈ union_rows l1 l2 ↔ x ∈ l1 ∨ x ∈ l2.
Proof.
  unfold union_rows. rewrite elem_of_distinct_from, elem_of_app.
  split; [tauto|]. intros H. split; [done|]. apply not_elem_of_nil.
Qed.

Lemma elem_of_owner_rows P g x :
  x ∈ owner_rows P g ↔
  ∃ e, e ∈ edges g ∧ rtype e = OWNS ∧
       node_sat (λ _, true) g (src e) = true ∧
       node_sat P g (dst e) = true ∧
       x = (nodes g !! src e ≫= node_uuid).
Proof.
  unfold owner_rows. rewrite list_elem_of_fmap. split.
  - intros (e & -> & ((Ht & Hs & Hd) & Hin)%list_elem_of_filter).
    exists e. tauto.
  - intros (e & Hin & Ht & Hs & Hd & ->). exists e. split; [done|].
    apply list_elem_of_filter. tauto.
Qed.

Lemma elem_of_merge_edge es e' e :
  e ∈ merge_edge es e' ↔ e ∈ es ∨ e = e'.
Proof.
  unfold merge_edge. case_bool_decide as Hin.
  - split; [tauto|]. by intros [?| ->].
  - rewrite elem_of_app, list_elem_of_singleton. tauto.
Qed.

Lemma matching_NoDup P g : NoDup (matching P g).
Proof. unfold matching. apply NoDup_fst_map_to_list. Qed.

Lemma matching_one P g i :
  node_sat P g i = true → (∀ j, node_sat P g j = true → j = i) →
  matching P g = [i].
Proof.
  intros Hi Huniq. pose proof (matching_NoDup P g) as Hnd.
  assert (∀ j, j ∈ matching P g ↔ j = i) as Hin.
  { intros j. rewrite elem_of_matching. split; [apply Huniq|by intros ->]. }
  destruct (matching P g) as [|x l].
  { exfalso. apply (not_elem_of_nil i). by apply Hin. }
  assert (x = i) as -> by (apply Hin; left).
  destruct l as [|y l]; [done|].
  assert (y = i) as -> by (apply Hin; right; left).
  apply NoDup_cons in Hnd as [Hni _]. destruct Hni. left.
Qed.

(** Nodes and patterns *)

Lemma node_sat_Some P g i :
  node_sat P g i = true ↔ ∃ n, nodes g !! i = Some n ∧ P n = true.
Proof.
  unfold node_sat. destruct (nodes g !! i) as [n|].
  - split; [eauto|]. by intros (? & [= <-] & ?).
  - split; [done|]. by intros (? & ? & ?).
Qed.

Lemma node_sat_project_uuid p g i :
  node_sat (is_project_uuid p) g i = true ↔ nodes g !! i = Some (PROJECT p).
Proof.
  rewrite node_sat_Some. split.
  - intros (n & Hn & HP). destruct n; try done. simpl in HP.
    by apply bool_decide_eq_true in HP as ->.
  - intros Hn. eexists. split; [done|]. simpl. by apply bool_decide_eq_true.
Qed.

Lemma node_sat_user_uuid u g i :
  node_sat (is_user_uuid u) g i = true ↔ nodes g !! i = Some (USER u).
Proof.
  rewrite node_sat_Some. split.
  - intros (n & Hn & HP). destruct n; try done. simpl in HP.
    by apply bool_decide_eq_true in HP as ->.
  - intros Hn. eexists. split; [done|]. simpl. by apply bool_decide_eq_true.
Qed.

Lemma node_sat_consumer_uuid c g i :
  node_sat (is_consumer_uuid c) g i = true ↔
  ∃ gen ca ua, nodes g !! i = Some (CONSUMER c gen ca ua).
Proof.
  rewrite node_sat_Some. split.
  - intros (n & Hn & HP). destruct n; try done. simpl in HP.
    apply bool_decide_eq_true in HP as ->. eauto.
  - intros (gen & ca & ua & Hn). eexists. split; [done|]. simpl.
    by apply bool_decide_eq_true.
Qed.

Lemma node_sat_is_project g i :
  node_sat is_project g i = true ↔ ∃ q, nodes g !! i = Some (PROJECT q).
Proof.
  rewrite node_sat_Some. split.
  - intros (n & Hn & HP). destruct n; try done. eauto.
  - intros (q & Hn). eauto.
Qed.

Lemma node_sat_is_user g i :
  node_sat is_user g i = true ↔ ∃ q, nodes g !! i = Some (USER q).
Proof.
  rewrite node_sat_Some. split.
  - intros (n & Hn & HP). destruct n; try done. eauto.
  - intros (q & Hn). eauto.
Qed.

Lemma node_sat_is_any_consumer g i :
  node_sat is_any_consumer g i = true ↔
  ∃ q gen ca ua, nodes g !! i = Some (CONSUMER q gen ca ua).
Proof.
  rewrite node_sat_Some. split.
  - intros (n & Hn & HP). destruct n; try done. eauto 6.
  - intros (q & gen & ca & ua & Hn). eauto.
Qed.

Lemma node_sat_nodes P g1 g2 i :
  nodes g1 = nodes g2 → node_sat P g1 i = node_sat P g2 i.
Proof. unfold node_sat. by intros ->. Qed.

Lemma matching_nodes P g1 g2 :
  nodes g1 = nodes g2 → matching P g1 = matching P g2.
Proof. unfold matching. by intros ->. Qed.

Lemma named_nodes g1 g2 p u c pj us co :
  nodes g1 = nodes g2 → named g2 p u c pj us co → named g1 p u c pj us co.
Proof.
  intros Hn (H1 & H2 & H3 & H4 & H5 & H6). unfold named, uuid_names in *.
  rewrite !(node_sat_nodes _ g1 g2) by done. by rewrite Hn.
Qed.

Lemma owns_chain_edge g e :
  owns_chain g → e ∈ edges g → rtype e = OWNS →
  (∃ q r, nodes g !! src e = Some (PROJECT q) ∧
          nodes g !! dst e = Some (USER r)) ∨
  (∃ q r gen ca ua, nodes g !! src e = Some (USER q) ∧
                    nodes g !! dst e = Some (CONSUMER r gen ca ua)).
Proof.
  intros Hchain He Ht. unfold owns_chain in Hchain.
  rewrite Forall_forall in Hchain. destruct (Hchain e He Ht) as [[Hs Hd]|[Hs Hd]].
  - left. apply node_sat_is_project in Hs as [q Hq].
    apply node_sat_is_user in Hd as [r Hr]. eauto.
  - right. apply node_sat_is_user in Hs as [q Hq].
    apply node_sat_is_any_consumer in Hd as (r & gen & ca & ua & Hr). eauto 8.
Qed.

Lemma edge_eta e i j :
  src e = i → rtype e = OWNS → dst e = j → e = Edge i OWNS j.
Proof. destruct e. simpl. by intros -> -> ->. Qed.

(** The owners the first query returns *)

Lemma user_rows g p u c pj us co x :
  named g p u c pj us co → owns_chain g →
  x ∈ owner_rows (is_user_uuid u) g ↔
  ∃ i q, owns g i us ∧ nodes g !! i = Some (PROJECT q) ∧ x = Some q.
Proof.
  intros (Hpj & Hus & Hco & Up & Uu & Uc) Hchain.
  rewrite elem_of_owner_rows. split.
  - intros (e & He & Ht & Hs & Hd & ->).
    apply node_sat_user_uuid in Hd.
    assert (dst e = us) as Hdst by (by eapply Uu).
    destruct (owns_chain_edge g e Hchain He Ht)
      as [(q & r & Hq & Hr)|(q & r & gen & ca & ua & Hq & Hr)];
      [|congruence].
    exists (src e), q. split; [|by rewrite Hq].
    unfold owns. by rewrite <- (edge_eta e (src e) us).
  - intros (i & q & Hown & Hi & ->). exists (Edge i OWNS us). simpl.
    split; [done|]. split; [done|]. split.
    { apply node_sat_Some. eauto. }
    split; [done|]. by rewrite Hi.
Qed.

Lemma consumer_rows g p u c pj us co x :
  named g p u c pj us co → owns_chain g →
  x ∈ owner_rows (is_consumer_uuid c) g ↔
  ∃ i q, owns g i co ∧ nodes g !! i = Some (USER q) ∧ x = Some q.
Proof.
  intros (Hpj & Hus & Hco & Up & Uu & Uc) Hchain.
  rewrite elem_of_owner_rows. split.
  - intros (e & He & Ht & Hs & Hd & ->).
    apply node_sat_consumer_uuid in Hd as (gen0 & ca0 & ua0 & Hd).
    assert (dst e = co) as Hdst by (by eapply Uc).
    destruct (owns_chain_edge g e Hchain He Ht)
      as [(q & r & Hq & Hr)|(q & r & gen & ca & ua & Hq & Hr)];
      [congruence|].
    exists (src e), q. split; [|by rewrite Hq].
    unfold owns. by rewrite <- (edge_eta e (src e) co).
  - intros (i & q & Hown & Hi & ->). exists (Edge i OWNS co). simpl.
    split; [done|]. split; [done|]. split.
    { apply node_sat_Some. eauto. }
    split; [done|]. by rewrite Hi.
Qed.

(** The early return *)

Lemma named_distinct g p u c pj us co :
  named g p u c pj us co → p ≠ u ∧ pj ≠ us ∧ us ≠ co.
Proof.
  intros (Hpj%node_sat_project_uuid & Hus%node_sat_user_uuid &
          (gen & ca & ua & Hco)%node_sat_consumer_uuid & Up & Uu & Uc).
  split_and!.
  - intros ->. assert (us = pj) as -> by (by eapply Up). congruence.
  - intros ->. congruence.
  - intros ->. congruence.
Qed.

Lemma sole_owners_rows g p u c pj us co :
  named g p u c pj us co → owns_chain g → sole_owners g pj us co →
  union_rows (owner_rows (is_user_uuid u) g)
             (owner_rows (is_consumer_uuid c) g) = [Some p; Some u].
Proof.
  intros Hnamed Hchain (Hpu & Huc & Hsole_u & Hsole_c).
  pose proof Hnamed as (Hpj%node_sat_project_uuid & Hus%node_sat_user_uuid &
                        _ & _ & _ & _).
  destruct (named_distinct _ _ _ _ _ _ _ Hnamed) as (Hne & _ & _).
  apply union_rows_two.
  - intros Hnil.
    assert (Some p ∈ owner_rows (is_user_uuid u) g) as Hin.
    { apply (user_rows g p u c pj us co); eauto. }
    rewrite Hnil in Hin. by apply elem_of_nil in Hin.
  - apply Forall_forall. intros x Hx.
    apply (user_rows g p u c pj us co) in Hx as (i & q & Hown & Hi & ->);
      [|done..].
    apply Hsole_u in Hown as ->. congruence.
  - intros Hnil.
    assert (Some u ∈ owner_rows (is_consumer_uuid c) g) as Hin.
    { apply (consumer_rows g p u c pj us co); eauto. }
    rewrite Hnil in Hin. by apply elem_of_nil in Hin.
  - apply Forall_forall. intros x Hx.
    apply (consumer_rows g p u c pj us co) in Hx as (i & q & Hown & Hi & ->);
      [|done..].
    apply Hsole_c in Hown as ->. congruence.
  - congruence.
Qed.

Lemma rows_sole_owners g p u c pj us co :
  named g p u c pj us co → owns_chain g →
  union_rows (owner_rows (is_user_uuid u) g)
             (owner_rows (is_consumer_uuid c) g) = [Some p; Some u] →
  sole_owners g pj us co.
Proof.
  intros Hnamed Hchain Hrows.
  pose proof Hnamed as (Hpj%node_sat_project_uuid & Hus%node_sat_user_uuid &
                        (gen & ca & ua & Hco)%node_sat_consumer_uuid &
                        Up & Uu & Uc).
  destruct (named_distinct _ _ _ _ _ _ _ Hnamed) as (Hne & _ & _).
  assert (∀ x, x ∈ owner_rows (is_user_uuid u) g ∨
               x ∈ owner_rows (is_consumer_uuid c) g ↔
               x = Some p ∨ x = Some u) as Hall.
  { intros x. rewrite <- elem_of_union_rows, Hrows.
    rewrite elem_of_cons, list_elem_of_singleton. tauto. }
  assert (∀ i, owns g i us → i = pj) as Hsole_u.
  { intros i Hown.
    destruct (owns_chain_edge g _ Hchain Hown eq_refl)
      as [(q & r & Hq & Hr)|(q & r & gen' & ca' & ua' & Hq & Hr)];
      simpl in *; [|congruence].
    assert (Some q = Some p ∨ Some q = Some u) as [[= ->]|[= ->]].
    { apply Hall. left. apply (user_rows g p u c pj us co); eauto. }
    - by eapply Up.
    - assert (i = us) as -> by (by eapply Uu). congruence. }
  assert (∀ i, owns g i co → i = us) as Hsole_c.
  { intros i Hown.
    destruct (owns_chain_edge g _ Hchain Hown eq_refl)
      as [(q & r & Hq & Hr)|(q & r & gen' & ca' & ua' & Hq & Hr)];
      simpl in *; [congruence|].
    assert (Some q = Some p ∨ Some q = Some u) as [[= ->]|[= ->]].
    { apply Hall. right. apply (consumer_rows g p u c pj us co); eauto. }
    - assert (i = pj) as -> by (by eapply Up). congruence.
    - by eapply Uu. }
  split_and!; [| |done..].
  - assert (Some p ∈ owner_rows (is_user_uuid u) g ∨
            Some p ∈ owner_rows (is_consumer_uuid c) g) as [Hin|Hin]
      by (apply Hall; auto).
    + apply (user_rows g p u c pj us co) in Hin
        as (i & q & Hown & Hi & [= <-]); [|done..].
      by rewrite <- (Hsole_u i Hown).
    + apply (consumer_rows g p u c pj us co) in Hin
        as (i & q & Hown & Hi & [= <-]); [|done..].
      assert (i = pj) as -> by (by eapply Up). congruence.
  - assert (Some u ∈ owner_rows (is_user_uuid u) g ∨
            Some u ∈ owner_rows (is_consumer_uuid c) g) as [Hin|Hin]
      by (apply Hall; auto).
    + apply (user_rows g p u c pj us co) in Hin
        as (i & q & Hown & Hi & [= <-]); [|done..].
      assert (i = us) as -> by (by eapply Uu). congruence.
    + apply (consumer_rows g p u c pj us co) in Hin
        as (i & q & Hown & Hi & [= <-]); [|done..].
      by rewrite <- (Hsole_c i Hown).
Qed.

(** The deletions and the merge *)

Lemma elem_of_delete_between P Q g e :
  e ∈ edges (delete_between P Q g) ↔ e ∈ edges g ∧ between P Q g e = false.
Proof. unfold delete_between. simpl. rewrite list_elem_of_filter. tauto. Qed.

Lemma merge_ownership_edges g p u c pj us co e :
  named g p u c pj us co →
  e ∈ edges (merge_ownership p u c g) ↔
  e ∈ edges g ∨ e = Edge pj OWNS us ∨ e = Edge us OWNS co.
Proof.
  intros (Hpj & Hus & Hco & Up & Uu & Uc). unfold merge_ownership.
  rewrite (matching_one (is_project_uuid p) g pj Hpj).
  2:{ intros j Hj%node_sat_project_uuid. by eapply Up. }
  rewrite (matching_one (is_user_uuid u) g us Hus).
  2:{ intros j Hj%node_sat_user_uuid. by eapply Uu. }
  rewrite (matching_one (is_consumer_uuid c) g co Hco).
  2:{ intros j (? & ? & ? & Hj)%node_sat_consumer_uuid. by eapply Uc. }
  simpl. rewrite !elem_of_merge_edge. tauto.
Qed.

Lemma kept_merge g G p u c pj us co :
  named g p u c pj us co → owns_chain g →
  nodes G = nodes g →
  (∀ e, e ∈ edges G → e ∈ edges g) →
  (∀ i, owns G i us → i = pj) →
  (∀ i, owns G i co → i = us) →
  nodes (merge_ownership p u c G) = nodes g ∧
  owns_chain (merge_ownership p u c G) ∧
  sole_owners (merge_ownership p u c G) pj us co ∧
  (∀ e, e ∈ edges G → e ∈ edges (merge_ownership p u c G)).
Proof.
  intros Hnamed Hchain Hnodes Hsub Hsole_u Hsole_c.
  pose proof (named_nodes G g _ _ _ _ _ _ Hnodes Hnamed) as HnamedG.
  destruct (named_distinct _ _ _ _ _ _ _ Hnamed) as (_ & Hpu & Huc).
  pose proof Hnamed as (Hpj & Hus & Hco & _).
  assert (nodes (merge_ownership p u c G) = nodes g) as Hnodes' by done.
  split; [done|]. split; [|split].
  - unfold owns_chain. apply Forall_forall. intros e He Ht.
    rewrite !(node_sat_nodes _ (merge_ownership p u c G) g) by done.
    apply (proj1 (merge_ownership_edges G p u c pj us co e HnamedG)) in He
      as [He|[->| ->]].
    + unfold owns_chain in Hchain. rewrite Forall_forall in Hchain.
      apply Hchain; [by apply Hsub|done].
    + left. simpl. split.
      * apply node_sat_is_project. apply node_sat_project_uuid in Hpj. eauto.
      * apply node_sat_is_user. apply node_sat_user_uuid in Hus. eauto.
    + right. simpl. split.
      * apply node_sat_is_user. apply node_sat_user_uuid in Hus. eauto.
      * apply node_sat_is_any_consumer.
        apply node_sat_consumer_uuid in Hco as (? & ? & ? & ?). eauto 6.
  - unfold sole_owners, owns. split_and!.
    + apply (merge_ownership_edges G p u c pj us co _ HnamedG); auto.
    + apply (merge_ownership_edges G p u c pj us co _ HnamedG); auto.
    + intros i Hi.
      apply (proj1 (merge_ownership_edges G p u c pj us co _ HnamedG)) in Hi
        as [Hi|[[= ->]|[= -> ?]]]; [by apply Hsole_u|done..].
    + intros i Hi.
      apply (proj1 (merge_ownership_edges G p u c pj us co _ HnamedG)) in Hi
        as [Hi|[[= -> ?]|[= ->]]]; [by apply Hsole_c|done..].
  - intros e He. apply (merge_ownership_edges G p u c pj us co _ HnamedG); auto.
Qed.

Lemma between_false P Q g e :
  between P Q g e = false → rtype e = OWNS →
  node_sat Q g (dst e) = true → node_sat P g (src e) = false.
Proof.
  unfold between. intros Hb Ht Hd.
  rewrite bool_decide_eq_true_2 in Hb by done. simpl in Hb.
  apply orb_false_iff in Hb as [Hb _]. rewrite Hd in Hb.
  by rewrite andb_true_r in Hb.
Qed.

Lemma deleted_kept g p u c pj us co :
  named g p u c pj us co → owns_chain g →
  let G := delete_between (is_user_not u) (is_consumer_uuid c)
             (delete_between (is_project_not p) (is_user_uuid u) g) in
  nodes G = nodes g ∧
  (∀ e, e ∈ edges G → e ∈ edges g) ∧
  (∀ i, owns G i us → i = pj) ∧
  (∀ i, owns G i co → i = us) ∧
  (∀ e, e ∈ edges g → dst e ≠ us → dst e ≠ co → e ∈ edges G).
Proof.
  intros Hnamed Hchain G.
  pose proof Hnamed as (Hpj & Hus & Hco & Up & Uu & Uc).
  set (g1 := delete_between (is_project_not p) (is_user_uuid u) g) in *.
  assert (nodes g1 = nodes g) as Hn1 by done.
  split; [done|]. split; [|split; [|split]].
  - intros e [[He _]%elem_of_delete_between _]%elem_of_delete_between. done.
  - intros i [[Hi Hb]%elem_of_delete_between _]%elem_of_delete_between.
    apply between_false in Hb; [|done..]. simpl in Hb.
    destruct (owns_chain_edge g _ Hchain Hi eq_refl)
      as [(q & r & Hq & Hr)|(q & r & gen' & ca' & ua' & Hq & Hr)];
      simpl in *.
    + unfold node_sat in Hb. rewrite Hq in Hb. simpl in Hb.
      apply negb_false_iff, bool_decide_eq_true in Hb as ->. by eapply Up.
    + apply node_sat_user_uuid in Hus. congruence.
  - intros i [Hi Hb]%elem_of_delete_between.
    apply elem_of_delete_between in Hi as [Hi _].
    apply between_false in Hb; [|done|].
    2:{ by rewrite (node_sat_nodes _ g1 g). }
    rewrite (node_sat_nodes _ g1 g) in Hb by done. simpl in Hb.
    destruct (owns_chain_edge g _ Hchain Hi eq_refl)
      as [(q & r & Hq & Hr)|(q & r & gen' & ca' & ua' & Hq & Hr)];
      simpl in *.
    + apply node_sat_consumer_uuid in Hco as (? & ? & ? & ?). congruence.
    + unfold node_sat in Hb. rewrite Hq in Hb. simpl in Hb.
      apply negb_false_iff, bool_decide_eq_true in Hb as ->. by eapply Uu.
  - intros e He Hnu Hnc.
    assert (∀ P Q, (∀ i, node_sat Q g i = true → i = us ∨ i = co) →
                   (∀ i, node_sat P g i = true →
                         ∃ q, nodes g !! i = Some (PROJECT q) ∨
                              nodes g !! i = Some (USER q)) →
                   (∀ i, node_sat Q g i = true →
                         ∃ q gen ca ua,
                           nodes g !! i = Some (USER q) ∨
                           nodes g !! i = Some (CONSUMER q gen ca ua)) →
                   (∀ i q, nodes g !! i = Some (USER q) →
                           node_sat P g i = true → node_sat Q g i = false) →
                   between P Q g e = false) as Hbetween.
    { intros P Q HQ HP HQ' HPQ. unfold between.
      destruct (decide (rtype e = OWNS)) as [Ht|Ht];
        [|by rewrite bool_decide_eq_false_2].
      rewrite bool_decide_eq_true_2 by done. simpl.
      apply orb_false_iff. split; apply andb_false_iff.
      - destruct (node_sat Q g (dst e)) eqn:Hd; [|auto].
        destruct (HQ _ Hd); done.
      - destruct (node_sat P g (dst e)) eqn:Hd; [|auto]. right.
        destruct (node_sat Q g (src e)) eqn:Hs; [|done].
        destruct (HP _ Hd) as [q [Hq|Hq]];
          destruct (HQ' _ Hs) as (q' & gen' & ca' & ua' & [Hq'|Hq']);
          destruct (owns_chain_edge g e Hchain He Ht)
            as [(a & b & Ha & Hb)|(a & b & gen'' & ca'' & ua'' & Ha & Hb)];
          congruence. }
    apply elem_of_delete_between. split.
    + apply elem_of_delete_between. split; [done|]. apply Hbetween.
      * intros i Hi%node_sat_user_uuid. left. by eapply Uu.
      * intros i (n & Hn & HP)%node_sat_Some. destruct n; try done. eauto.
      * intros i Hi%node_sat_user_uuid. exists u, 0, 0, 0. auto.
      * intros i q Hi (n & Hn & HP)%node_sat_Some.
        rewrite Hi in Hn. injection Hn as <-. done.
    + rewrite <- (Hbetween (is_user_not u) (is_consumer_uuid c)).
      * unfold between. by rewrite !(node_sat_nodes _ g1 g).
      * intros i (? & ? & ? & Hi)%node_sat_consumer_uuid. right. by eapply Uc.
      * intros i (n & Hn & HP)%node_sat_Some. destruct n; try done. eauto.
      * intros i (gen0 & ca0 & ua0 & Hi)%node_sat_consumer_uuid.
        exists c, gen0, ca0, ua0. auto.
      * intros i q Hi _. unfold node_sat. by rewrite Hi.
Qed.

Lemma merge_ownership_exact g p u c pj us co :
  named g p u c pj us co →
  edges (merge_ownership p u c g) =
    merge_edge (merge_edge (edges g) (Edge pj OWNS us)) (Edge us OWNS co).
Proof.
  intros (Hpj & Hus & Hco & Up & Uu & Uc). unfold merge_ownership.
  rewrite (matching_one (is_project_uuid p) g pj Hpj).
  2:{ intros j Hj%node_sat_project_uuid. by eapply Up. }
  rewrite (matching_one (is_user_uuid u) g us Hus).
  2:{ intros j Hj%node_sat_user_uuid. by eapply Uu. }
  rewrite (matching_one (is_consumer_uuid c) g co Hco).
  2:{ intros j (? & ? & ? & Hj)%node_sat_consumer_uuid. by eapply Uc. }
  done.
Qed.

Lemma merge_edge_NoDup es e : NoDup es → NoDup (merge_edge es e).
Proof.
  intros Hnd. unfold merge_edge. case_bool_decide as Hin; [done|].
  apply NoDup_app. split; [done|]. split.
  - intros x Hx ->%list_elem_of_singleton. done.
  - apply NoDup_singleton.
Qed.

Lemma only_element {A} (l : list A) a :
  NoDup l → a ∈ l → (∀ x, x ∈ l → x = a) → l = [a].
Proof.
  intros Hnd Ha Hall. destruct l as [|x l]; [by apply elem_of_nil in Ha|].
  assert (x = a) as -> by (apply Hall; left).
  destruct l as [|y l]; [done|].
  assert (y = a) as -> by (apply Hall; right; left).
  apply NoDup_cons in Hnd as [Hni _]. destruct Hni. left.
Qed.

Lemma sole_owner_only g i j :
  NoDup (edges g) → owns g i j → (∀ k, owns g k j → k = i) →
  filter (λ e, rtype e = OWNS ∧ dst e = j) (edges g) = [Edge i OWNS j].
Proof.
  intros Hnd Hown Hsole. apply only_element.
  - by apply NoDup_filter.
  - apply list_elem_of_filter. done.
  - intros e [[Ht Hd] He]%list_elem_of_filter.
    rewrite (edge_eta e (src e) j) in He |- * by done.
    by rewrite (Hsole _ He).
Qed.



Lemma merge_ownership_no_rows p u c g :
  matching (is_project_uuid p) g = [] ∨
  matching (is_user_uuid u) g = [] ∨
  matching (is_consumer_uuid c) g = [] →
  merge_ownership p u c g = g.
Proof.
  intros Hnone. unfold merge_ownership.
  assert ((pj ← matching (is_project_uuid p) g;
           us ← matching (is_user_uuid u) g;
           co ← matching (is_consumer_uuid c) g;
           [(pj, us, co)]) = []) as ->.
  { destruct Hnone as [->|[->| ->]]; [done| |].
    - induction (matching (is_project_uuid p) g) as [|x l IH]; [done|].
      by rewrite bind_cons, IH.
    - induction (matching (is_project_uuid p) g) as [|x l IH]; [done|].
      rewrite bind_cons, IH, app_nil_r.
      clear IH. induction (matching (is_user_uuid u) g) as [|y l' IH]; [done|].
      by rewrite bind_cons, IH. }
  by destruct g.
Qed.



End ConsumerFacts.
